(** * rename_to_claude_code_ide.py: a shallow embedding and its properties

    The script renames a project from claude-code.nvim to
    claude-code-ide.nvim: it moves three paths, rewrites the text files of
    the tree with an ordered list of regular-expression rules, and patches
    the git configuration.  This development embeds the script's
    [RenameProject] class, with the part of Python's [re], [pathlib],
    [os.walk] and [shutil] that it calls, and proves properties of it. *)

From Stdlib Require Import String Ascii.
From Stdlib Require Import List NArith Arith Bool Lia.
Import ListNotations.

(** ** Python strings

    A Python [str] is a sequence of Unicode code points. *)

Definition char := N.
Definition str := list char.

(** The code points of an ASCII literal. *)
Definition txt (s : string) : str :=
  map N_of_ascii (list_ascii_of_string s).
Arguments txt s%_string.

Definition dq : str := [34%N].        (* the double quote *)
Definition nl : str := [10%N].        (* "\n" *)
Definition arrow : str := [8594%N].   (* U+2192, the arrow of the log lines *)

Fixpoint str_eqb (a b : str) : bool :=
  match a, b with
  | [], [] => true
  | x :: a', y :: b' => N.eqb x y && str_eqb a' b'
  | _, _ => false
  end.

(** [s.startswith(p)] *)
Fixpoint starts_with (p s : str) : bool :=
  match p, s with
  | [], _ => true
  | x :: p', y :: s' => N.eqb x y && starts_with p' s'
  | _ :: _, [] => false
  end.

(** [p in s] *)
Fixpoint contains (p s : str) : bool :=
  starts_with p s ||
  match s with
  | [] => false
  | _ :: s' => contains p s'
  end.

(** [str(n)] for a natural number: its decimal digits. *)
Fixpoint digits (u : Decimal.uint) : str :=
  match u with
  | Decimal.Nil => []
  | Decimal.D0 u => 48%N :: digits u
  | Decimal.D1 u => 49%N :: digits u
  | Decimal.D2 u => 50%N :: digits u
  | Decimal.D3 u => 51%N :: digits u
  | Decimal.D4 u => 52%N :: digits u
  | Decimal.D5 u => 53%N :: digits u
  | Decimal.D6 u => 54%N :: digits u
  | Decimal.D7 u => 55%N :: digits u
  | Decimal.D8 u => 56%N :: digits u
  | Decimal.D9 u => 57%N :: digits u
  end.

Definition str_of_nat (n : nat) : str := digits (Nat.to_uint n).

(** Exceptions are values: a computation returns [Ok] or raises with the
    text of the exception. *)
Inductive res (A : Type) : Type :=
| Ok (a : A)
| Raise (msg : str).
Arguments Ok {A} a.
Arguments Raise {A} msg.

(** ** The regular expressions of the script

    The patterns of [self.replacements] use literal characters, escaped
    punctuation, the class [\s], the anchors [^] and [$], alternation and
    capturing groups.  [Re] models Python's [re] on this fragment: a
    parser for the pattern text, a backtracking matcher, and the scanning
    loop shared by [re.sub] and [re.findall]. *)

Module Re.

Inductive regex : Type :=
| Eps
| Chr (c : char)
| Space
| Bol
| Eol
| Seq (a b : regex)
| Alt (a b : regex)
| Group (n : nat) (a : regex).

(** [\s] on a str pattern: the code points for which Python's
    [str.isspace] holds. *)
Definition is_space (c : char) : bool :=
  ((9 <=? c) && (c <=? 13) || (28 <=? c) && (c <=? 32) ||
   (c =? 133) || (c =? 160) || (c =? 5760) ||
   (8192 <=? c) && (c <=? 8202) || (c =? 8232) || (c =? 8233) ||
   (c =? 8239) || (c =? 8287) || (c =? 12288))%N.

Definition is_alnum (c : char) : bool :=
  ((48 <=? c) && (c <=? 57) || (65 <=? c) && (c <=? 90) ||
   (97 <=? c) && (c <=? 122))%N.

(** Characters with a meaning of their own in a pattern that the fragment
    does not cover: . * + ? [ ] { } *)
Definition unsupported (c : char) : bool :=
  ((c =? 46) || (c =? 42) || (c =? 43) || (c =? 63) ||
   (c =? 91) || (c =? 93) || (c =? 123) || (c =? 125))%N.

(** An atom in front of what follows it: the atom joins the first
    alternative. *)
Definition cons_atom (a r : regex) : regex :=
  match r with
  | Alt x y => Alt (Seq a x) y
  | _ => Seq a r
  end.

(** [parse fuel g s] reads an alternation up to the end of the pattern or
    an unmatched closing parenthesis; [g] is the number of the next
    group. *)
Fixpoint parse (fuel g : nat) (s : str) : option (regex * nat * str) :=
  match fuel with
  | O => None
  | S fuel =>
    match s with
    | [] => Some (Eps, g, [])
    | c :: s' =>
      if (c =? 41)%N then Some (Eps, g, s)
      else if (c =? 124)%N then
        match parse fuel g s' with
        | Some (r, g', rest) => Some (Alt Eps r, g', rest)
        | None => None
        end
      else if (c =? 40)%N then
        match s' with
        | 63%N :: _ => None
        | _ =>
          match parse fuel (S g) s' with
          | Some (body, g', 41%N :: rest) =>
            match parse fuel g' rest with
            | Some (r, g'', rest') => Some (cons_atom (Group g body) r, g'', rest')
            | None => None
            end
          | _ => None
          end
        end
      else if (c =? 92)%N then
        match s' with
        | [] => None
        | e :: s'' =>
          if (e =? 115)%N then
            match parse fuel g s'' with
            | Some (r, g', rest) => Some (cons_atom Space r, g', rest)
            | None => None
            end
          else if is_alnum e then None
          else
            match parse fuel g s'' with
            | Some (r, g', rest) => Some (cons_atom (Chr e) r, g', rest)
            | None => None
            end
        end
      else if unsupported c then None
      else
        let a := if (c =? 94)%N then Bol else if (c =? 36)%N then Eol else Chr c in
        match parse fuel g s' with
        | Some (r, g', rest) => Some (cons_atom a r, g', rest)
        | None => None
        end
    end
  end.

(** [re.compile(pattern)], [None] for a pattern outside the fragment. *)
Definition compile (pattern : str) : option regex :=
  match parse (S (length pattern)) 1 pattern with
  | Some (r, _, []) => Some r
  | _ => None
  end.

(** The state of a match attempt: whether the position is the start of the
    content, the number of characters consumed, the text ahead and the
    groups captured so far. *)
Record mstate : Type := MState {
  bol : bool;
  used : nat;
  ahead : str;
  caps : list (nat * str)
}.

Definition advance (st : mstate) (s' : str) : mstate :=
  MState false (S (used st)) s' (caps st).

Definition capture (n : nat) (from : mstate) (st : mstate) : mstate :=
  MState (bol st) (used st) (ahead st)
         ((n, firstn (used st - used from) (ahead from)) :: caps st).

(** The backtracking matcher, in continuation-passing style: alternatives
    are tried left to right, and a later failure comes back to the next
    alternative. *)
Fixpoint rmatch {A : Type} (r : regex) (st : mstate)
         (k : mstate -> option A) : option A :=
  match r with
  | Eps => k st
  | Chr c =>
    match ahead st with
    | d :: s' => if (d =? c)%N then k (advance st s') else None
    | [] => None
    end
  | Space =>
    match ahead st with
    | d :: s' => if is_space d then k (advance st s') else None
    | [] => None
    end
  | Bol => if bol st then k st else None
  | Eol =>
    match ahead st with
    | [] => k st
    | [d] => if (d =? 10)%N then k st else None
    | _ => None
    end
  | Seq a b => rmatch a st (fun st' => rmatch b st' k)
  | Alt a b =>
    match rmatch a st k with
    | Some x => Some x
    | None => rmatch b st k
    end
  | Group n a => rmatch a st (fun st' => k (capture n st st'))
  end.

(** A match of [r] starting at the current position. *)
Definition match_here (r : regex) (at_start : bool) (s : str) : option mstate :=
  rmatch r (MState at_start 0 s []) (fun st => Some st).

(** Replacement templates: text with group references [\1] to [\9]. *)
Inductive titem : Type :=
| TChr (c : char)
| TRef (n : nat).

(** [esc] holds when the previous character was a backslash. *)
Fixpoint template_from (esc : bool) (t : str) : list titem :=
  match t with
  | [] => if esc then [TChr 92%N] else []
  | c :: t' =>
    if esc then
      if ((49 <=? c) && (c <=? 57))%N
      then TRef (N.to_nat c - 48) :: template_from false t'
      else if (c =? 92)%N then TChr 92%N :: template_from false t'
      else TChr 92%N :: TChr c :: template_from false t'
    else if (c =? 92)%N then template_from true t'
    else TChr c :: template_from false t'
  end.

Definition template (t : str) : list titem := template_from false t.

Fixpoint group (n : nat) (cs : list (nat * str)) : str :=
  match cs with
  | [] => []
  | (m, s) :: cs' => if Nat.eqb m n then s else group n cs'
  end.

(** [match.expand(template)]; a group that took no part in the match
    expands to the empty string. *)
Fixpoint expand (t : list titem) (cs : list (nat * str)) : str :=
  match t with
  | [] => []
  | TChr c :: t' => c :: expand t' cs
  | TRef n :: t' => group n cs ++ expand t' cs
  end.

(** The scanning loop of [re.sub] and [re.findall]: at each position, left
    to right, try a match; after a match continue behind it.  [m] gives,
    for a position, the length of the match there and the text that
    replaces it.  [skip] counts the characters of a match still to pass
    over.  (No pattern of the script matches the empty string; an empty
    match is replaced and the scan moves on by one character.) *)
Section Scan.
Variable m : bool -> str -> option (nat * str).

Fixpoint sub_scan (at_start : bool) (skip : nat) (s : str) : str :=
  match s with
  | [] =>
    match skip with
    | O => match m at_start [] with Some (_, e) => e | None => [] end
    | S _ => []
    end
  | c :: s' =>
    match skip with
    | S k => sub_scan false k s'
    | O =>
      match m at_start s with
      | Some (O, e) => e ++ c :: sub_scan false O s'
      | Some (S n, e) => e ++ sub_scan false n s'
      | None => c :: sub_scan false O s'
      end
    end
  end.

Fixpoint count_scan (at_start : bool) (skip : nat) (s : str) : nat :=
  match s with
  | [] =>
    match skip with
    | O => match m at_start [] with Some _ => 1 | None => 0 end
    | S _ => 0
    end
  | c :: s' =>
    match skip with
    | S k => count_scan false k s'
    | O =>
      match m at_start s with
      | Some (O, _) => S (count_scan false O s')
      | Some (S n, _) => S (count_scan false n s')
      | None => count_scan false O s'
      end
    end
  end.
End Scan.

Definition matcher (r : regex) (t : list titem) (at_start : bool) (s : str)
  : option (nat * str) :=
  match match_here r at_start s with
  | Some st => Some (used st, expand t (caps st))
  | None => None
  end.

(** [re.sub(pattern, repl, content)] *)
Definition sub (pattern repl content : str) : res str :=
  match compile pattern with
  | Some r => Ok (sub_scan (matcher r (template repl)) true 0 content)
  | None => Raise (txt "re.error")
  end.

(** [len(re.findall(pattern, content))] *)
Definition findall_len (pattern content : str) : res nat :=
  match compile pattern with
  | Some r => Ok (count_scan (matcher r []) true 0 content)
  | None => Raise (txt "re.error")
  end.

End Re.

(** [s.replace(old, new)]: every occurrence of [old], left to right and
    without overlap; no regular expression takes part. *)
Definition str_replace (old new s : str) : str :=
  Re.sub_scan (fun _ rest => if starts_with old rest
                             then Some (length old, new) else None)
              true 0 s.

(** ** The file system under the root

    A directory lists its entries in the order [os.scandir] gives them.  A
    file holds the text that reading it gives, or the exception that
    reading it raises, and the exception that opening it for writing
    raises, if any. *)

Definition name := str.
Definition path := list name.

Unset Elimination Schemes.
Inductive node : Type :=
| File (data : res str) (wr : option str)
| Dir (entries : list (name * node)).
Set Elimination Schemes.

Fixpoint assoc (x : name) (es : list (name * node)) : option node :=
  match es with
  | [] => None
  | (y, c) :: es' => if str_eqb x y then Some c else assoc x es'
  end.

Fixpoint lookup (n : node) (p : path) {struct p} : option node :=
  match p with
  | [] => Some n
  | x :: p' =>
    match n with
    | Dir es =>
      match assoc x es with
      | Some c => lookup c p'
      | None => None
      end
    | File _ _ => None
    end
  end.

(** [Path.exists()] *)
Definition path_exists (fs : node) (p : path) : bool :=
  match lookup fs p with Some _ => true | None => false end.

Definition is_dir (fs : node) (p : path) : bool :=
  match lookup fs p with Some (Dir _) => true | _ => false end.

(** [open(p, 'r').read()] *)
Definition read_text (fs : node) (p : path) : res str :=
  match lookup fs p with
  | Some (File data _) => data
  | Some (Dir _) => Raise (txt "Is a directory")
  | None => Raise (txt "No such file or directory")
  end.

(** The entry [x] of a listing replaced by [f] of it. *)
Fixpoint change (x : name) (f : node -> node) (es : list (name * node))
  : list (name * node) :=
  match es with
  | [] => []
  | (y, c) :: es' =>
    if str_eqb x y then (y, f c) :: es' else (y, c) :: change x f es'
  end.

(** The tree with the node at [p] replaced by [new]. *)
Fixpoint update (n : node) (p : path) (new : node) {struct p} : node :=
  match p with
  | [] => new
  | x :: p' =>
    match n with
    | Dir es => Dir (change x (fun c => update c p' new) es)
    | File _ _ => n
    end
  end.

(** [open(p, 'w').write(content)] on a file that exists; the script only
    writes a file it has just read. *)
Definition write_text (fs : node) (p : path) (content : str) : res node :=
  match lookup fs p with
  | Some (File _ None) => Ok (update fs p (File (Ok content) None))
  | Some (File _ (Some e)) => Raise e
  | Some (Dir _) => Raise (txt "Is a directory")
  | None => Raise (txt "No such file or directory")
  end.

Fixpoint drop_entry (x : name) (es : list (name * node)) : list (name * node) :=
  match es with
  | [] => []
  | (y, c) :: es' => if str_eqb x y then es' else (y, c) :: drop_entry x es'
  end.

(** The tree without the node at [p]. *)
Fixpoint remove (n : node) (p : path) {struct p} : node :=
  match p with
  | [] => n
  | [x] =>
    match n with
    | Dir es => Dir (drop_entry x es)
    | File _ _ => n
    end
  | x :: p' =>
    match n with
    | Dir es => Dir (change x (fun c => remove c p') es)
    | File _ _ => n
    end
  end.

(** The tree with [new] at [p], in the place of the entry of that name or
    as a new last entry; the parent of [p] has to be a directory. *)
Fixpoint put (n : node) (p : path) (new : node) {struct p}
  : option node :=
  match p with
  | [] => None
  | [x] =>
    match n with
    | Dir es =>
      match assoc x es with
      | Some _ => Some (Dir (change x (fun _ => new) es))
      | None => Some (Dir (es ++ [(x, new)]))
      end
    | File _ _ => None
    end
  | x :: p' =>
    match n with
    | Dir es =>
      match assoc x es with
      | Some c =>
        match put c p' new with
        | Some c' => Some (Dir (change x (fun _ => c') es))
        | None => None
        end
      | None => None
      end
    | File _ _ => None
    end
  end.

(** [Path.mkdir(parents=True, exist_ok=True)] *)
Fixpoint mkdir_p (n : node) (p : path) {struct p} : res node :=
  match p with
  | [] =>
    match n with
    | Dir _ => Ok n
    | File _ _ => Raise (txt "File exists")
    end
  | x :: p' =>
    match n with
    | Dir es =>
      match assoc x es with
      | Some c =>
        match mkdir_p c p' with
        | Ok c' => Ok (Dir (change x (fun _ => c') es))
        | Raise e => Raise e
        end
      | None =>
        match mkdir_p (Dir []) p' with
        | Ok c' => Ok (Dir (es ++ [(x, c')]))
        | Raise e => Raise e
        end
      end
    | File _ _ => Raise (txt "Not a directory")
    end
  end.

(** [os.rename(src, dst)] *)
Definition os_rename (fs : node) (src dst : path) : res node :=
  match lookup fs src with
  | Some x =>
    match put (remove fs src) dst x with
    | Some fs' => Ok fs'
    | None => Raise (txt "No such file or directory")
    end
  | None => Raise (txt "No such file or directory")
  end.

Fixpoint path_prefix (p q : path) : bool :=
  match p, q with
  | [], _ => true
  | x :: p', y :: q' => str_eqb x y && path_prefix p' q'
  | _ :: _, [] => false
  end.

(** [shutil.move(src, dst)]: into [dst] when it is a directory, onto it
    otherwise. *)
Definition shutil_move (fs : node) (src dst : path) : res node :=
  match lookup fs src with
  | None => Raise (txt "No such file or directory")
  | Some s =>
    match lookup fs dst with
    | Some (Dir _) =>
      let real_dst := dst ++ [last src []] in
      if path_exists fs real_dst
      then Raise (txt "Destination path already exists")
      else if path_prefix src dst
      then Raise (txt "Cannot move a directory into itself")
      else os_rename fs src real_dst
    | Some (File _ _) =>
      match s with
      | File _ _ => os_rename fs src dst
      | Dir _ => Raise (txt "Not a directory")
      end
    | None => os_rename fs src dst
    end
  end.

(** [PurePath.suffix]: the name from its last dot on, when that dot is
    neither the first nor the last character. *)
Fixpoint rfind_dot (rev_name : str) (j : nat) : option nat :=
  match rev_name with
  | [] => None
  | c :: r => if (c =? 46)%N then Some j else rfind_dot r (S j)
  end.

Definition suffix (nm : name) : str :=
  match rfind_dot (rev nm) 0 with
  | Some j =>
    if (0 <? j) && (S j <? length nm) then skipn (length nm - S j) nm else []
  | None => []
  end.

(** [Path(s).parts] of a relative path *)
Fixpoint parts_from (cur : str) (s : str) : path :=
  match s with
  | [] => match cur with [] => [] | _ => [cur] end
  | c :: s' =>
    if (c =? 47)%N
    then match cur with [] => parts_from [] s' | _ => cur :: parts_from [] s' end
    else parts_from (cur ++ [c]) s'
  end.

Definition parts (s : str) : path := parts_from [] s.

(** [str(path)] of a relative path *)
Fixpoint path_str (p : path) : str :=
  match p with
  | [] => txt "."
  | [x] => x
  | x :: p' => x ++ txt "/" ++ path_str p'
  end.

(** ** The class RenameProject *)

Definition mem (x : str) (xs : list str) : bool := existsb (str_eqb x) xs.

Definition text_extensions : list str :=
  [txt ".lua"; txt ".md"; txt ".txt"; txt ".sh"; txt ".nix"; txt ".yaml";
   txt ".yml"; txt ".json"].

Definition special_files : list str :=
  [txt "Justfile"; txt "Makefile"; txt "LICENSE"; txt "CHANGELOG"].

Definition replacements : list (str * str) :=
  [ (txt "claude-code\.nvim", txt "claude-code-ide.nvim");
    (txt "claude-code\.txt", txt "claude-code-ide.txt");
    (txt "claude-code\.log", txt "claude-code-ide.log");
    (txt "ianks/claude-code\.nvim", txt "ianks/claude-code-ide.nvim");
    (txt "require\(" ++ dq ++ txt "claude-code" ++ dq ++ txt "\)",
     txt "require(" ++ dq ++ txt "claude-code-ide" ++ dq ++ txt ")");
    (txt "require\(" ++ dq ++ txt "claude-code\.",
     txt "require(" ++ dq ++ txt "claude-code-ide.");
    (txt "require\('claude-code'\)", txt "require('claude-code-ide')");
    (txt "require\('claude-code\.", txt "require('claude-code-ide.");
    (txt "claude-code:", txt "claude-code-ide:");
    (txt "\*claude-code-", txt "*claude-code-ide-");
    (txt "/claude-code/", txt "/claude-code-ide/");
    (dq ++ txt "claude-code/", dq ++ txt "claude-code-ide/");
    (txt "'claude-code/", txt "'claude-code-ide/");
    (txt "(\s|^|" ++ dq ++ txt ")claude-code(\s|$|" ++ dq ++ txt ")",
     txt "\1claude-code-ide\2") ].


Definition path_renames : list (str * str) :=
  [ (txt "lua/claude-code", txt "lua/claude-code-ide");
    (txt "doc/claude-code.txt", txt "doc/claude-code-ide.txt");
    (txt "plugin/claude-code.lua", txt "plugin/claude-code-ide.lua") ].

(** The state a run works on: the tree under [self.root_path] and
    [self.changes]. *)
Record world : Type := World {
  fs : node;
  changes : list str
}.

(** A method is a computation on the state that returns or raises. *)
Definition M (A : Type) : Type := world -> res A * world.

Definition ret {A : Type} (a : A) : M A := fun w => (Ok a, w).

Definition bind {A B : Type} (m : M A) (f : A -> M B) : M B :=
  fun w =>
    match m w with
    | (Ok a, w') => f a w'
    | (Raise e, w') => (Raise e, w')
    end.

Notation "x <- m ;; k" := (bind m (fun x => k))
  (at level 61, m at next level, right associativity).
Notation "m ;; k" := (bind m (fun _ => k))
  (at level 61, right associativity).

(** [try: body except Exception as e: handler(e)] *)
Definition try_except (body : M unit) (handler : str -> M unit) : M unit :=
  fun w =>
    match body w with
    | (Ok a, w') => (Ok a, w')
    | (Raise e, w') => handler e w'
    end.

Definition lift {A : Type} (r : res A) : M A := fun w => (r, w).

Fixpoint for_each {X : Type} (xs : list X) (body : X -> M unit) : M unit :=
  match xs with
  | [] => ret tt
  | x :: xs' => body x ;; for_each xs' body
  end.

Definition get_fs : M node := fun w => (Ok (fs w), w).

Definition set_fs (n : node) : M unit := fun w => (Ok tt, World n (changes w)).

(** An operation of the file system that returns the new tree or raises. *)
Definition fs_op (op : node -> res node) : M unit :=
  n <- get_fs ;; n' <- lift (op n) ;; set_fs n'.

Record RenameProject : Type := New {
  root_path : str;
  dry_run : bool
}.

(** [str(self.root_path / p)] *)
Definition full_path (self : RenameProject) (p : path) : str :=
  if str_eqb (root_path self) (txt ".") then path_str p
  else root_path self ++ txt "/" ++ path_str p.

Section Methods.
Variable self : RenameProject.

(** [self.log(message)]: the message joins [self.changes] (and is
    printed). *)
Definition log (message : str) : M unit :=
  fun w => (Ok tt, World (fs w) (changes w ++ [message])).

Definition should_process_file (file_path : path) : bool :=
  if mem (last file_path []) special_files then true
  else mem (suffix (last file_path [])) text_extensions.

Definition change_line (pattern replacement : str) (occurrences : nat) : str :=
  txt "  - " ++ pattern ++ txt " " ++ arrow ++ txt " " ++ replacement ++
  txt " (" ++ str_of_nat occurrences ++ txt " occurrences)".

(** The loop over [self.replacements] in [replace_in_file], on its local
    variables [content] and [changes_made]. *)
Fixpoint apply_rules (rules : list (str * str)) (content : str)
         (changes_made : list str) : res (str * list str) :=
  match rules with
  | [] => Ok (content, changes_made)
  | (pattern, replacement) :: rules' =>
    match Re.sub pattern replacement content with
    | Raise e => Raise e
    | Ok new_content =>
      if negb (str_eqb new_content content) then
        match Re.findall_len pattern content with
        | Raise e => Raise e
        | Ok occurrences =>
          apply_rules rules' new_content
            (changes_made ++ [change_line pattern replacement occurrences])
        end
      else apply_rules rules' content changes_made
    end
  end.

Definition replace_in_file (file_path : path) : M unit :=
  try_except
    (n <- get_fs ;;
     content <- lift (read_text n file_path) ;;
     r <- lift (apply_rules replacements content []) ;;
     let (new_content, changes_made) := r in
     if negb (str_eqb new_content content) then
       log (txt "Updating file: " ++ path_str file_path) ;;
       for_each changes_made log ;;
       if negb (dry_run self)
       then fs_op (fun n => write_text n file_path new_content)
       else ret tt
     else ret tt)
    (fun e =>
       log (txt "Error processing " ++ full_path self file_path ++
            txt ": " ++ e)).

(** The body of the loop of [rename_paths]. *)
Definition rename_rule (rule : str * str) : M unit :=
  let (old_path, new_path) := rule in
  let old_full := parts old_path in
  let new_full := parts new_path in
  n <- get_fs ;;
  if path_exists n old_full then
    log (txt "Renaming: " ++ old_path ++ txt " " ++ arrow ++ txt " " ++
         new_path) ;;
    if negb (dry_run self) then
      fs_op (fun n => mkdir_p n (removelast new_full)) ;;
      fs_op (fun n => shutil_move n old_full new_full)
    else ret tt
  else
    log (txt "Warning: Path not found: " ++ old_path).

Definition rename_paths : M unit := for_each path_renames rename_rule.

Definition skipped_dirs : list str :=
  [txt "node_modules"; txt "build"; txt "dist"; txt "__pycache__"].

(** The directories [os.walk] goes on into. *)
Definition keep_dir (d : name) : bool :=
  negb (starts_with (txt ".") d) && negb (mem d skipped_dirs).

Fixpoint file_names (es : list (name * node)) : list name :=
  match es with
  | [] => []
  | (x, File _ _) :: es' => x :: file_names es'
  | (_, Dir _) :: es' => file_names es'
  end.

(** The walk of [process_all_files] from the directory [n] at [here]:
    the files of a directory that pass [should_process_file], then its
    kept subdirectories in turn. *)
Fixpoint collect (n : node) (here : path) : list path :=
  match n with
  | File _ _ => []
  | Dir es =>
    filter should_process_file (map (fun x => here ++ [x]) (file_names es)) ++
    (fix subdirs (es : list (name * node)) : list path :=
       match es with
       | [] => []
       | (d, c) :: es' =>
         match c with
         | Dir _ => if keep_dir d then collect c (here ++ [d]) else []
         | File _ _ => []
         end ++ subdirs es'
       end) es
  end.

Definition process_all_files : M unit :=
  n <- get_fs ;;
  let files_to_process := collect n [] in
  log (nl ++ txt "Processing " ++ str_of_nat (length files_to_process) ++
       txt " files...") ;;
  for_each files_to_process replace_in_file.

Definition old_id : str := txt "claude-code.nvim".
Definition new_id : str := txt "claude-code-ide.nvim".

Definition update_git_remote : M unit :=
  try_except
    (let git_config := [txt ".git"; txt "config"] in
     n <- get_fs ;;
     if path_exists n git_config then
       content <- lift (read_text n git_config) ;;
       if contains old_id content then
         log (nl ++ txt "Updating git remote URL...") ;;
         let new_content := str_replace old_id new_id content in
         if negb (dry_run self)
         then fs_op (fun n => write_text n git_config new_content)
         else ret tt
       else ret tt
     else ret tt)
    (fun e => log (txt "Warning: Could not update git config: " ++ e)).

(** [run]; what it prints besides the log entries is left out. *)
Definition run : M unit :=
  log (txt "Step 1: Renaming directories and files...") ;;
  rename_paths ;;
  log (nl ++ txt "Step 2: Updating file contents...") ;;
  process_all_files ;;
  log (nl ++ txt "Step 3: Checking git configuration...") ;;
  update_git_remote.

End Methods.

(** [main]: the command line gives the root ([--path], "." when absent)
    and whether to apply ([--execute]); without the flag the run
    previews. *)
Definition main (path : option str) (execute : bool) : M unit :=
  let root := match path with Some p => p | None => txt "." end in
  run (New root (negb execute)).

(** ** Notions used by the statements *)

(** The content after a list of rules, as [apply_rules] computes it; a
    pattern outside the fragment leaves the content (the script has
    none). *)
Definition step (rule : str * str) (content : str) : str :=
  match Re.sub (fst rule) (snd rule) content with
  | Ok new_content => new_content
  | Raise _ => content
  end.

Definition pipeline (rules : list (str * str)) (content : str) : str :=
  fold_left (fun c rule => step rule c) rules content.

(** The content that reaches rule number [j] (from 0) of the script. *)
Definition stage (j : nat) (content : str) : str :=
  pipeline (firstn j replacements) content.

(** The matches a rule counts in a content. *)
Definition matches (rule : str * str) (content : str) : nat :=
  match Re.findall_len (fst rule) content with
  | Ok n => n
  | Raise _ => 0
  end.

(** The entries of [changes_made] for a list of rules from a content: one
    for each rule that changes the content it receives, with the matches
    counted in that content. *)
Fixpoint change_lines (rules : list (str * str)) (content : str) : list str :=
  match rules with
  | [] => []
  | rule :: rules' =>
    (if str_eqb (step rule content) content then []
     else [change_line (fst rule) (snd rule) (matches rule content)]) ++
    change_lines rules' (step rule content)
  end.

(** The loop over a list of rules is idempotent: applied to its own
    output, it substitutes nothing. *)
Definition idempotent (rules : list (str * str)) : Prop :=
  forall s t lines,
    apply_rules rules s [] = Ok (t, lines) ->
    apply_rules rules t [] = Ok (t, []).

(** What every replacement of the script adds to its match. *)
Definition ide : str := txt "-ide".

(** [ins s t]: [t] is [s] with [ide] inserted at some places. *)
Inductive ins : str -> str -> Prop :=
| ins_nil : ins [] []
| ins_keep (c : char) (s t : str) : ins s t -> ins (c :: s) (c :: t)
| ins_add (s t : str) : ins s t -> ins s (ide ++ t).

(** One of two texts is the start of the other. *)
Definition compat (x y : str) : bool := starts_with x y || starts_with y x.

(** No end of [q] can run into an inserted [ide]. *)
Fixpoint safe_tail (q : str) : bool :=
  match q with
  | [] => true
  | _ :: q' => negb (compat q ide) && safe_tail q'
  end.

(** [q] cannot start inside an inserted [ide]. *)
Definition safe_head (q : str) : bool :=
  negb (compat q (skipn 1 ide)) && negb (compat q (skipn 2 ide)) &&
  negb (compat q (skipn 3 ide)).

(** No proper end of [p] is a start of [p]. *)
Definition unbordered (p : str) : bool :=
  forallb (fun k => negb (compat p (skipn k p))) (seq 1 (length p - 1)).

(** The matcher of a literal text [p] replaced by [r]. *)
Definition literal (p r : str) (at_start : bool) (rest : str)
  : option (nat * str) :=
  if starts_with p rest then Some (length p, r) else None.

(** The regular expression of a literal text, before [tl]. *)
Definition lit_seq (p : str) (tl : Re.regex) : Re.regex :=
  fold_right (fun c r => Re.Seq (Re.Chr c) r) tl p.

Definition lit_re (p : str) : Re.regex := lit_seq p Re.Eps.

(** The state of a match after the characters of [p]. *)
Fixpoint adv (p : str) (st : Re.mstate) : Re.mstate :=
  match p with
  | [] => st
  | _ :: p' => adv p' (Re.advance st (tl (Re.ahead st)))
  end.

(** What a successful match of a regular expression does to the state. *)
Fixpoint den (r : Re.regex) (st st' : Re.mstate) : Prop :=
  match r with
  | Re.Eps => st' = st
  | Re.Chr c => exists s', Re.ahead st = c :: s' /\ st' = Re.advance st s'
  | Re.Space =>
    exists d s', Re.ahead st = d :: s' /\ Re.is_space d = true /\
                 st' = Re.advance st s'
  | Re.Bol => Re.bol st = true /\ st' = st
  | Re.Eol => (Re.ahead st = [] \/ Re.ahead st = [10%N]) /\ st' = st
  | Re.Seq a b => exists mid, den a st mid /\ den b mid st'
  | Re.Alt a b => den a st st' \/ den b st st'
  | Re.Group n a => exists mid, den a st mid /\ st' = Re.capture n st mid
  end.

(** The general rule of the script, as [Re.compile] reads it. *)
Definition delimiter (edge : Re.regex) : Re.regex :=
  Re.Alt (Re.Seq Re.Space Re.Eps)
         (Re.Alt (Re.Seq edge Re.Eps) (Re.Seq (Re.Chr 34%N) Re.Eps)).

Definition general_re : Re.regex :=
  Re.Seq (Re.Group 1 (delimiter Re.Bol))
         (lit_seq (txt "claude-code")
                  (Re.Seq (Re.Group 2 (delimiter Re.Eol)) Re.Eps)).

Definition general_rule : str * str := nth 13 replacements ([], []).



(** A pattern without its backslashes. *)
Fixpoint unescape (pattern : str) : str :=
  match pattern with
  | [] => []
  | c :: rest => if (c =? 92)%N then unescape rest else c :: unescape rest
  end.

(** A matcher whose replacement is its match with [ide] inserted. *)
Definition inserting (m : bool -> str -> option (nat * str)) : Prop :=
  forall b s n e, m b s = Some (n, e) ->
    0 < n /\ n <= length s /\
    exists a c, firstn n s = a ++ c /\ e = a ++ ide ++ c.

(** A rule of the script that is a literal text [a ++ c] replaced by
    [a ++ ide ++ c]. *)
Definition literal_rule (rule : str * str) (a c : str) : Prop :=
  Re.compile (fst rule) = Some (lit_re (a ++ c)) /\
  Re.template (snd rule) = map Re.TChr (snd rule) /\
  snd rule = a ++ ide ++ c /\ a <> [] /\ c <> [].

(** The text before and after the inserted [ide] in the replacement of a
    literal rule: the pattern through its "claude-code", and the rest. *)
Fixpoint through_name (s : str) : str :=
  if starts_with (txt "claude-code") s then txt "claude-code"
  else match s with
       | [] => []
       | c :: s' => c :: through_name s'
       end.

Definition before_ide (rule : str * str) : str :=
  through_name (unescape (fst rule)).

Definition after_ide (rule : str * str) : str :=
  skipn (length (before_ide rule)) (unescape (fst rule)).

(** The rule number [j] (from 0) of the script. *)
Definition rule_at (j : nat) : str * str := nth j replacements ([], []).

(** The literal text a rule looks for. *)
Definition sought (rule : str * str) : str := unescape (fst rule).

(** A literal rule whose text no insertion of [ide] brings back and which
    cannot overlap itself. *)
Definition settles (rule : str * str) : Prop :=
  literal_rule rule (before_ide rule) (after_ide rule) /\
  before_ide rule ++ after_ide rule = sought rule /\
  safe_tail (sought rule) = true /\ safe_head (sought rule) = true /\
  unbordered (sought rule) = true.

(** ** Notions about runs *)

(** The state with one more log entry. *)
Definition logged (w : world) (entries : list str) : world :=
  World (fs w) (changes w ++ entries).

(** The entry of [replace_in_file] for an exception. *)
Definition error_entry (self : RenameProject) (p : path) (e : str) : str :=
  txt "Error processing " ++ full_path self p ++ txt ": " ++ e.

(** The entries of [replace_in_file] for a file it has read: none when the
    rules leave the content as it is; else the path of the file, and a
    line for each rule that changed the content it received. *)
Definition update_entries (p : path) (content : str) : list str :=
  if str_eqb (pipeline replacements content) content then []
  else (txt "Updating file: " ++ path_str p) :: change_lines replacements content.

(** What [replace_in_file] does, case by case. *)
Definition replace_in_file_spec (self : RenameProject) (p : path) (w : world)
  : world :=
  match read_text (fs w) p with
  | Raise e => logged w [error_entry self p e]
  | Ok content =>
    let w' := logged w (update_entries p content) in
    if str_eqb (pipeline replacements content) content || dry_run self then w'
    else
      match write_text (fs w) p (pipeline replacements content) with
      | Ok n => World n (changes w')
      | Raise e => logged w' [error_entry self p e]
      end
  end.

Definition git_config : path := [txt ".git"; txt "config"].

(** What the patch of the git configuration does, in the words of the
    specification: nothing when the file is absent; a warning when
    reading it raises; nothing when the old identifier does not occur;
    else a log entry and, when the run applies, the content with the old
    identifier replaced written back, or a warning when writing raises. *)
Definition git_patch_spec (self : RenameProject) (w : world) : world :=
  if path_exists (fs w) git_config then
    match read_text (fs w) git_config with
    | Raise e => logged w [txt "Warning: Could not update git config: " ++ e]
    | Ok content =>
      if contains (txt "claude-code.nvim") content then
        let w' := logged w [nl ++ txt "Updating git remote URL..."] in
        if dry_run self then w'
        else
          match write_text (fs w) git_config
                  (str_replace (txt "claude-code.nvim")
                               (txt "claude-code-ide.nvim") content) with
          | Ok n => World n (changes w')
          | Raise e =>
            logged w' [txt "Warning: Could not update git config: " ++ e]
          end
      else w
    end
  else w.

(** The entry of [rename_paths] for a rule, by whether its old path is
    there. *)
Definition rename_entry (n : node) (rule : str * str) : str :=
  if path_exists n (parts (fst rule))
  then txt "Renaming: " ++ fst rule ++ txt " " ++ arrow ++ txt " " ++ snd rule
  else txt "Warning: Path not found: " ++ fst rule.

(** The messages of the three steps in [run]. *)
Definition step1 : str := txt "Step 1: Renaming directories and files...".
Definition step2 : str := nl ++ txt "Step 2: Updating file contents...".
Definition step3 : str := nl ++ txt "Step 3: Checking git configuration...".

(** The files of a list rewritten one after the other. *)
Definition process_spec (self : RenameProject) (files : list path) (w : world)
  : world :=
  fold_left (fun w p => replace_in_file_spec self p w) files w.

(** The entry that opens the second step. *)
Definition processing_entry (files : list path) : str :=
  nl ++ txt "Processing " ++ str_of_nat (length files) ++ txt " files...".

(** The second and third step of [run], from the state the first step
    leaves. *)
Definition after_renames (self : RenameProject) (w : world) : world :=
  let w2 := logged w [step2] in
  let files := collect (fs w2) [] in
  let w3 := process_spec self files (logged w2 [processing_entry files]) in
  git_patch_spec self (logged w3 [step3]).

(** ** Trees for the examples *)

Definition file (content : string) : node := File (Ok (txt content)) None.
Arguments file content%_string.


(** A plugin tree before the renaming. *)
Definition example_tree : node :=
  Dir [(txt "lua",
        Dir [(txt "claude-code",
              Dir [(txt "init.lua", file "require('claude-code.config')")])]);
       (txt "README.md", file "Install ianks/claude-code.nvim");
       (txt "logo.png", file "claude-code");
       (txt "node_modules", Dir [(txt "readme.md", file "claude-code.nvim")]);
       (txt ".git",
        Dir [(txt "config",
              file "url = git@github.com:ianks/claude-code.nvim.git")])].

(** A tree with nothing to rename and a help file. *)
Definition example_doc : node :=
  Dir [(txt "doc", Dir [(txt "help.txt", file "*claude-code-usage*")])].

Definition renaming_entry (rule : str * str) : str :=
  txt "Renaming: " ++ fst rule ++ txt " " ++ arrow ++ txt " " ++ snd rule.

Definition missing_entry (rule : str * str) : str :=
  txt "Warning: Path not found: " ++ fst rule.

(** ** Notions about the walk *)

(** What is at a path: nothing, a directory, or a file with its data. *)
Inductive kind : Type :=
| KNone
| KDir
| KFile (data : res str) (wr : option str).

Definition kind_of (n : node) (p : path) : kind :=
  match lookup n p with
  | None => KNone
  | Some (Dir _) => KDir
  | Some (File data wr) => KFile data wr
  end.

(** [p] is a file of the tree that the walk reaches: every directory on
    the way to it is kept. *)
Fixpoint visited (n : node) (p : path) {struct p} : bool :=
  match p with
  | [] => false
  | x :: p' =>
    match n with
    | Dir es =>
      match assoc x es with
      | Some (File _ _) => match p' with [] => true | _ :: _ => false end
      | Some (Dir _ as c) => keep_dir x && visited c p'
      | None => false
      end
    | File _ _ => false
    end
  end.

Fixpoint distinct (names : list name) : bool :=
  match names with
  | [] => true
  | x :: names' => negb (mem x names') && distinct names'
  end.

(** A tree in which no directory has two entries of one name. *)
Fixpoint wf (n : node) : bool :=
  match n with
  | File _ _ => true
  | Dir es =>
    distinct (map fst es) &&
    (fix all (es : list (name * node)) : bool :=
       match es with
       | [] => true
       | (_, c) :: es' => wf c && all es'
       end) es
  end.

(** The part of [collect] for the subdirectories of a listing. *)
Definition collect_dirs (here : path) (es : list (name * node)) : list path :=
  flat_map (fun e =>
              match snd e with
              | Dir _ =>
                if keep_dir (fst e) then collect (snd e) (here ++ [fst e])
                else []
              | File _ _ => []
              end) es.


(** ** Notions for further properties *)

(** [s] is [t] with some characters left out. *)
Inductive subseq : str -> str -> Prop :=
| subseq_nil : subseq [] []
| subseq_keep (c : char) (s t : str) : subseq s t -> subseq (c :: s) (c :: t)
| subseq_skip (c : char) (s t : str) : subseq s t -> subseq s (c :: t).

(** The matches the rules of a list count, each in the content that
    reaches it. *)
Fixpoint total_matches (rules : list (str * str)) (content : str) : nat :=
  match rules with
  | [] => 0
  | rule :: rules' =>
    matches rule content + total_matches rules' (step rule content)
  end.

(** The name the script replaces. *)
Definition old_name : str := txt "claude-code".

(** A method that only appends to [self.changes]. *)
Definition appends {A : Type} (m : M A) : Prop :=
  forall w, exists more, changes (snd (m w)) = changes w ++ more.

(** The number in the summary line at the end of [run]:
    [len(self.changes)]. *)
Definition summary (self : RenameProject) : M nat :=
  run self ;; (fun w => (Ok (length (changes w)), w)).


(** The first component of the old path of a rename rule. *)
Definition top (rule : str * str) : name := hd [] (parts (fst rule)).

(** A rename rule that renames an entry inside its directory, below the
    root. *)
Definition sibling (rule : str * str) : Prop :=
  exists d a b,
    parts (fst rule) = (top rule :: d) ++ [a] /\
    parts (snd rule) = (top rule :: d) ++ [b].

(** * Properties *)

(** ** Texts *)

Lemma str_eqb_eq (a b : str) : str_eqb a b = true <-> a = b.
Proof.
  revert b; induction a as [|x a IH]; intros [|y b]; simpl; split;
    try congruence; try reflexivity.
  - intros H. apply andb_true_iff in H as [Hx Hab].
    apply N.eqb_eq in Hx. apply IH in Hab. congruence.
  - intros H. injection H as -> ->. rewrite N.eqb_refl. now apply IH.
Qed.

Lemma str_eqb_refl (a : str) : str_eqb a a = true.
Proof. now apply str_eqb_eq. Qed.

Lemma str_eqb_neq (a b : str) : str_eqb a b = false <-> a <> b.
Proof.
  split.
  - intros H E. apply str_eqb_eq in E. congruence.
  - intros H. destruct (str_eqb a b) eqn:E; [|reflexivity].
    apply str_eqb_eq in E. contradiction.
Qed.

Lemma starts_with_iff (p s : str) :
  starts_with p s = true <-> exists r, s = p ++ r.
Proof.
  revert s; induction p as [|x p IH]; intros s; simpl.
  - split; [intros _; now exists s | reflexivity].
  - destruct s as [|y s].
    + split; [discriminate | intros [r H]; discriminate].
    + rewrite andb_true_iff, N.eqb_eq, IH. split.
      * intros [-> [r ->]]. now exists r.
      * intros [r H]. injection H as -> ->. split; [reflexivity | now exists r].
Qed.

Lemma starts_with_app (p r : str) : starts_with p (p ++ r) = true.
Proof. apply starts_with_iff. now exists r. Qed.

Lemma starts_with_nil (p : str) : starts_with p [] = true -> p = [].
Proof. destruct p; [reflexivity | discriminate]. Qed.

Lemma starts_with_skipn (p s : str) :
  starts_with p s = true -> s = p ++ skipn (length p) s.
Proof.
  intros H. apply starts_with_iff in H as [r ->].
  now rewrite skipn_app, skipn_all, Nat.sub_diag.
Qed.

(** A text that starts [x ++ t] starts [x], or [x] starts it. *)
Lemma starts_with_app_compat (q x t : str) :
  starts_with q (x ++ t) = true -> compat q x = true.
Proof.
  unfold compat. revert x; induction q as [|c q IH]; intros x H.
  - reflexivity.
  - destruct x as [|d x].
    + reflexivity.
    + simpl in *. apply andb_true_iff in H as [Hc H].
      rewrite Hc. apply N.eqb_eq in Hc. subst d. rewrite N.eqb_refl.
      simpl. now apply IH.
Qed.

Lemma starts_with_app_cancel (a q t : str) :
  starts_with (a ++ q) (a ++ t) = starts_with q t.
Proof.
  induction a as [|c a IH]; simpl; [reflexivity|].
  now rewrite N.eqb_refl.
Qed.

Lemma contains_nil (s : str) : contains [] s = true.
Proof. destruct s; reflexivity. Qed.

Lemma contains_cons (q : str) (c : char) (s : str) :
  contains q (c :: s) = starts_with q (c :: s) || contains q s.
Proof. reflexivity. Qed.

(** An occurrence in [x ++ y] starts in [x] or lies in [y]. *)
Lemma contains_app_cases (q x y : str) :
  contains q (x ++ y) = true ->
  (exists k, k < length x /\ starts_with q (skipn k x ++ y) = true) \/
  contains q y = true.
Proof.
  induction x as [|c x IH]; simpl app; intros H.
  - now right.
  - rewrite contains_cons in H. apply orb_true_iff in H as [H|H].
    + left. exists 0. simpl. split; [lia | exact H].
    + destruct (IH H) as [[k [Hk Hs]]|Hy]; [left | now right].
      exists (S k). simpl. split; [lia | exact Hs].
Qed.

Lemma contains_app_r (q x y : str) :
  contains q y = true -> contains q (x ++ y) = true.
Proof.
  intros H. induction x as [|c x IH]; simpl app; [exact H|].
  rewrite contains_cons, IH. apply orb_true_r.
Qed.

Lemma contains_starts (q s : str) :
  starts_with q s = true -> contains q s = true.
Proof. intros H. destruct s; simpl; rewrite H; reflexivity. Qed.

Lemma contains_iff (q s : str) :
  contains q s = true <-> exists a b, s = a ++ q ++ b.
Proof.
  split.
  - induction s as [|c s IH]; intros H.
    + simpl in H. rewrite orb_false_r in H. apply starts_with_nil in H.
      subst q. now exists [], [].
    + rewrite contains_cons in H. apply orb_true_iff in H as [H|H].
      * apply starts_with_iff in H as [r Hr]. exists [], r. exact Hr.
      * destruct (IH H) as [a [b ->]]. now exists (c :: a), b.
  - intros [a [b ->]]. apply contains_app_r, contains_starts, starts_with_app.
Qed.

(** A text that holds [q] holds every part of [q]. *)
Lemma contains_part (p q s : str) :
  contains p q = true -> contains q s = true -> contains p s = true.
Proof.
  rewrite !contains_iff. intros [a [b ->]] [c [d ->]].
  exists (c ++ a), (b ++ d). now rewrite <- !app_assoc.
Qed.

(** ** Insertions of [ide] *)

Lemma ins_refl (s : str) : ins s s.
Proof. induction s; constructor; assumption. Qed.

Lemma ins_app (s1 t1 s2 t2 : str) :
  ins s1 t1 -> ins s2 t2 -> ins (s1 ++ s2) (t1 ++ t2).
Proof.
  intros H1 H2. induction H1.
  - exact H2.
  - simpl. now constructor.
  - rewrite <- app_assoc. now constructor.
Qed.

(** Where a text whose ends are safe starts in an insertion of [s], it
    starts in [s]. *)
Lemma ins_starts_with (q s t : str) :
  ins s t -> safe_tail q = true ->
  starts_with q t = true -> starts_with q s = true.
Proof.
  intros H. revert q. induction H; intros q Hq Hs.
  - exact Hs.
  - destruct q as [|x q]; [reflexivity|].
    simpl in *. apply andb_true_iff in Hs as [Hx Hs].
    apply andb_true_iff in Hq as [_ Hq].
    rewrite Hx. simpl. now apply IHins.
  - destruct q as [|x q]; [reflexivity|].
    apply starts_with_app_compat in Hs.
    simpl in Hq. apply andb_true_iff in Hq as [Hq _].
    rewrite Hs in Hq. discriminate.
Qed.

(** An insertion of [ide] brings no occurrence of a safe text. *)
Lemma ins_contains (q s t : str) :
  ins s t -> safe_tail q = true -> safe_head q = true ->
  contains q t = true -> contains q s = true.
Proof.
  intros H Ht Hh. destruct q as [|x q]; [intros; apply contains_nil|].
  induction H; intros Hc.
  - exact Hc.
  - rewrite contains_cons in *. apply orb_true_iff in Hc as [Hc|Hc].
    + assert (Hs : starts_with (x :: q) (c :: s) = true)
        by (apply ins_starts_with with (t := c :: t); [now constructor | assumption ..]).
      rewrite Hs. reflexivity.
    + rewrite (IHins Hc). apply orb_true_r.
  - apply IHins.
    apply contains_app_cases in Hc as [[k [Hk Hc]]|Hc]; [|exact Hc].
    exfalso. apply starts_with_app_compat in Hc.
    unfold safe_head in Hh. apply andb_true_iff in Hh as [Hh H3].
    apply andb_true_iff in Hh as [H1 H2].
    simpl in Ht. apply andb_true_iff in Ht as [H0 _].
    change (length ide) with 4 in Hk.
    apply negb_true_iff in H0, H1, H2, H3.
    destruct k as [|[|[|[|k]]]]; [| | | |lia].
    + exact (eq_true_false_abs _ Hc H0).
    + exact (eq_true_false_abs _ Hc H1).
    + exact (eq_true_false_abs _ Hc H2).
    + exact (eq_true_false_abs _ Hc H3).
Qed.

Lemma safe_tail_app (a c : str) : safe_tail (a ++ c) = true -> safe_tail c = true.
Proof.
  induction a as [|x a IH]; [trivial|].
  simpl app. intros H. simpl in H. apply andb_true_iff in H as [_ H]. now apply IH.
Qed.

Lemma safe_tail_not_ide (q t : str) :
  q <> [] -> safe_tail q = true -> starts_with q (ide ++ t) = false.
Proof.
  intros Hq Ht.
  destruct (starts_with q (ide ++ t)) eqn:Hc; [exfalso|reflexivity].
  apply starts_with_app_compat in Hc.
  destruct q as [|x q]; [congruence|].
  simpl in Ht. apply andb_true_iff in Ht as [H0 _].
  apply negb_true_iff in H0. exact (eq_true_false_abs _ Hc H0).
Qed.

Lemma safe_not_in_ide (q : str) (k : nat) (t : str) :
  q <> [] -> safe_tail q = true -> safe_head q = true -> k < 4 ->
  starts_with q (skipn k ide ++ t) = false.
Proof.
  intros Hq Ht Hh Hk.
  destruct (starts_with q (skipn k ide ++ t)) eqn:Hc; [exfalso|reflexivity].
  apply starts_with_app_compat in Hc.
  destruct q as [|x q]; [congruence|].
  unfold safe_head in Hh. apply andb_true_iff in Hh as [Hh H3].
  apply andb_true_iff in Hh as [H1 H2].
  simpl in Ht. apply andb_true_iff in Ht as [H0 _].
  apply negb_true_iff in H0, H1, H2, H3.
  destruct k as [|[|[|[|k]]]]; [| | | |lia].
  - exact (eq_true_false_abs _ Hc H0).
  - exact (eq_true_false_abs _ Hc H1).
  - exact (eq_true_false_abs _ Hc H2).
  - exact (eq_true_false_abs _ Hc H3).
Qed.

Lemma unbordered_shift (p : str) (k : nat) (t : str) :
  unbordered p = true -> 0 < k -> k < length p ->
  starts_with p (skipn k p ++ t) = false.
Proof.
  intros Hu H0 Hk.
  destruct (starts_with p (skipn k p ++ t)) eqn:Hc; [exfalso|reflexivity].
  apply starts_with_app_compat in Hc.
  unfold unbordered in Hu. rewrite forallb_forall in Hu.
  assert (Hin : In k (seq 1 (length p - 1))) by (apply in_seq; lia).
  apply Hu in Hin. rewrite Hc in Hin. discriminate.
Qed.

(** ** The scanning loop *)

Section ScanFacts.
Variable m : bool -> str -> option (nat * str).

Lemma sub_scan_skip (k : nat) (s : str) (b : bool) :
  0 < k -> k <= length s ->
  Re.sub_scan m b k s = Re.sub_scan m false 0 (skipn k s).
Proof.
  revert k b. induction s as [|c s IH]; intros k b H0 Hk; simpl in Hk.
  - lia.
  - destruct k as [|k]; [lia|]. simpl.
    destruct k as [|k]; [reflexivity|].
    apply IH; lia.
Qed.

(** After a match the scan goes on behind it. *)
Lemma sub_scan_match (b : bool) (s : str) (n : nat) (e : str) :
  m b s = Some (n, e) -> 0 < n -> n <= length s ->
  Re.sub_scan m b 0 s = e ++ Re.sub_scan m false 0 (skipn n s).
Proof.
  intros Hm H0 Hn. destruct s as [|c s]; simpl in Hn; [lia|].
  simpl. rewrite Hm. destruct n as [|n]; [lia|].
  destruct n as [|n]; [reflexivity|].
  rewrite sub_scan_skip by lia. reflexivity.
Qed.

Lemma sub_scan_miss (b : bool) (c : char) (s : str) :
  m b (c :: s) = None ->
  Re.sub_scan m b 0 (c :: s) = c :: Re.sub_scan m false 0 s.
Proof. intros Hm. simpl. now rewrite Hm. Qed.

(** A scan that counts no match changes nothing. *)
Lemma count_zero_sub (s : str) (b : bool) :
  Re.count_scan m b 0 s = 0 -> Re.sub_scan m b 0 s = s.
Proof.
  revert b. induction s as [|c s IH]; intros b; simpl.
  - destruct (m b []) as [[n e]|]; [discriminate | reflexivity].
  - destruct (m b (c :: s)) as [[[|n] e]|]; try discriminate.
    intros H. now rewrite IH.
Qed.

(** The scan of an inserting matcher inserts [ide]. *)
Lemma sub_scan_ins :
  inserting m -> forall s b, ins s (Re.sub_scan m b 0 s).
Proof.
  intros Hm s. remember (length s) as l eqn:Hl.
  revert s Hl. induction l as [l IH] using lt_wf_ind. intros s Hl b.
  destruct s as [|c s].
  - simpl. destruct (m b []) as [[n e]|] eqn:E; [|constructor].
    apply Hm in E as [H0 [Hn _]]. simpl in Hn. lia.
  - destruct (m b (c :: s)) as [[n e]|] eqn:E.
    + destruct (Hm _ _ _ _ E) as [H0 [Hn [a [d [Hf He]]]]].
      rewrite (sub_scan_match _ _ _ _ E H0 Hn).
      rewrite <- (firstn_skipn n (c :: s)) at 1. rewrite Hf, He.
      rewrite <- !app_assoc.
      apply ins_app; [apply ins_refl|].
      constructor. apply ins_app; [apply ins_refl|].
      apply (IH (length (skipn n (c :: s)))); [|reflexivity].
      rewrite length_skipn. subst l. cbn [length] in *. lia.
    + rewrite (sub_scan_miss _ _ _ E). constructor.
      apply (IH (length s)); [subst l; simpl; lia | reflexivity].
Qed.
End ScanFacts.

Lemma sub_scan_ext (m1 m2 : bool -> str -> option (nat * str)) :
  (forall b s, m1 b s = m2 b s) ->
  forall s b k, Re.sub_scan m1 b k s = Re.sub_scan m2 b k s.
Proof.
  intros H. induction s as [|c s IH]; intros b k; simpl.
  - now rewrite H.
  - destruct k; [|apply IH]. rewrite H.
    destruct (m2 b (c :: s)) as [[[|n] e]|]; now rewrite IH.
Qed.

Lemma count_scan_ext (m1 m2 : bool -> str -> option (nat * str)) :
  (forall b s, match m1 b s, m2 b s with
               | Some (n1, _), Some (n2, _) => n1 = n2
               | None, None => True
               | _, _ => False
               end) ->
  forall s b k, Re.count_scan m1 b k s = Re.count_scan m2 b k s.
Proof.
  intros H. induction s as [|c s IH]; intros b k; simpl.
  - destruct k; [|reflexivity]. specialize (H b []).
    destruct (m1 b []) as [[n1 e1]|], (m2 b []) as [[n2 e2]|];
      try reflexivity; contradiction.
  - destruct k; [|apply IH]. specialize (H b (c :: s)).
    destruct (m1 b (c :: s)) as [[n1 e1]|], (m2 b (c :: s)) as [[n2 e2]|];
      try contradiction; [subst n2|apply IH].
    destruct n1; now rewrite IH.
Qed.

(** ** Literal rules *)

Lemma literal_count_zero (p r s : str) (b : bool) :
  contains p s = false -> Re.count_scan (literal p r) b 0 s = 0.
Proof.
  revert b. induction s as [|c s IH]; intros b H.
  - simpl in *. unfold literal. rewrite orb_false_r in H. now rewrite H.
  - rewrite contains_cons in H. apply orb_false_iff in H as [H1 H2].
    simpl. unfold literal at 1. rewrite H1. now apply IH.
Qed.

Section Literal.
Variables a c : str.
Hypothesis a_not_nil : a <> [].
Hypothesis c_not_nil : c <> [].
Let p := a ++ c.
Let r := a ++ ide ++ c.

Lemma literal_inserting : inserting (literal p r).
Proof.
  intros b s n e H. unfold literal in H.
  destruct (starts_with p s) eqn:Hs; [|discriminate].
  injection H as <- <-.
  apply starts_with_iff in Hs as [t ->].
  rewrite length_app. repeat split.
  - subst p. rewrite length_app. destruct a; [congruence | simpl; lia].
  - lia.
  - exists a, c. split; [|reflexivity].
    now rewrite firstn_app, firstn_all, Nat.sub_diag, firstn_O, app_nil_r.
Qed.

Hypothesis p_tail : safe_tail p = true.
Hypothesis p_head : safe_head p = true.
Hypothesis p_unbordered : unbordered p = true.

Let p_not_nil : p <> [].
Proof. subst p. destruct a; [congruence | discriminate]. Qed.

(** After the rule, its text occurs nowhere. *)
Lemma literal_kills (s : str) (b : bool) :
  contains p (Re.sub_scan (literal p r) b 0 s) = false.
Proof.
  remember (length s) as l eqn:Hl.
  revert s Hl b. induction l as [l IH] using lt_wf_ind. intros s Hl b.
  destruct s as [|x s].
  - simpl. unfold literal.
    destruct (starts_with p []) eqn:E.
    + apply starts_with_nil in E. contradiction.
    + simpl. now rewrite E.
  - destruct (literal p r b (x :: s)) as [[n e]|] eqn:E.
    + destruct (literal_inserting _ _ _ _ E) as [H0 [Hn _]].
      rewrite (sub_scan_match _ _ _ _ _ E H0 Hn).
      unfold literal in E.
      destruct (starts_with p (x :: s)) eqn:Hs; [|discriminate].
      injection E as <- <-.
      set (rest := skipn (length p) (x :: s)) in *.
      set (out := Re.sub_scan (literal p r) false 0 rest).
      assert (Hout : ins rest out) by (apply sub_scan_ins, literal_inserting).
      assert (IHout : contains p out = false).
      { apply (IH (length rest)); [|reflexivity].
        subst rest. rewrite length_skipn. subst l. cbn [length] in *. lia. }
      destruct (contains p (r ++ out)) eqn:Hc; [exfalso|reflexivity].
      subst r. rewrite <- !app_assoc in Hc.
      apply contains_app_cases in Hc as [[k [Hk Hc]]|Hc].
      { (* the occurrence starts in [a] *)
        destruct k as [|k].
        - simpl skipn in Hc. subst p.
          rewrite starts_with_app_cancel in Hc.
          rewrite safe_tail_not_ide in Hc;
            [discriminate | assumption | exact (safe_tail_app a c p_tail)].
        - assert (Hi : ins (skipn (S k) a ++ c ++ rest)
                           (skipn (S k) a ++ ide ++ c ++ out)).
          { apply ins_app; [apply ins_refl|]. constructor.
            apply ins_app; [apply ins_refl | exact Hout]. }
          apply (ins_starts_with _ _ _ Hi p_tail) in Hc.
          rewrite app_assoc in Hc.
          replace (skipn (S k) a ++ c) with (skipn (S k) p) in Hc.
          + rewrite unbordered_shift in Hc; [discriminate|assumption|lia|].
            subst p. rewrite length_app.
            destruct c; [congruence | simpl; lia].
          + subst p. rewrite skipn_app.
            replace (S k - length a) with 0 by lia. reflexivity. }
      apply contains_app_cases in Hc as [[k [Hk Hc]]|Hc].
      { rewrite safe_not_in_ide in Hc; [discriminate|assumption..]. }
      apply contains_app_cases in Hc as [[k [Hk Hc]]|Hc].
      { assert (Hi : ins (skipn k c ++ rest) (skipn k c ++ out))
          by (apply ins_app; [apply ins_refl | exact Hout]).
        apply (ins_starts_with _ _ _ Hi p_tail) in Hc.
        replace (skipn k c) with (skipn (length a + k) p) in Hc.
        - rewrite unbordered_shift in Hc; [discriminate|assumption| |].
          + destruct a; [congruence | simpl; lia].
          + subst p. rewrite length_app. lia.
        - subst p. rewrite skipn_app, skipn_all2 by lia.
          replace (length a + k - length a) with k by lia. reflexivity. }
      congruence.
    + rewrite (sub_scan_miss _ _ _ _ E).
      unfold literal in E.
      destruct (starts_with p (x :: s)) eqn:Hs; [discriminate|].
      rewrite contains_cons.
      rewrite (IH (length s)); [|subst l; simpl; lia|reflexivity].
      rewrite orb_false_r.
      destruct (starts_with p (x :: Re.sub_scan (literal p r) false 0 s)) eqn:Hc;
        [|reflexivity].
      assert (Hi : ins (x :: s) (x :: Re.sub_scan (literal p r) false 0 s))
        by (constructor; apply sub_scan_ins, literal_inserting).
      apply (ins_starts_with _ _ _ Hi p_tail) in Hc. congruence.
Qed.
End Literal.

(** ** The matcher *)

Lemma rmatch_sound (A : Type) (r : Re.regex) :
  forall (st : Re.mstate) (k : Re.mstate -> option A) (x : A),
    Re.rmatch r st k = Some x -> exists st', den r st st' /\ k st' = Some x.
Proof.
  induction r as [ |c| | | |a IHa b IHb|a IHa b IHb|n a IHa];
    intros st k x H; simpl in H.
  - now exists st.
  - destruct (Re.ahead st) as [|d s'] eqn:E; [discriminate|].
    destruct (N.eqb_spec d c); [subst d|discriminate].
    exists (Re.advance st s'). split; [|exact H]. simpl. now exists s'.
  - destruct (Re.ahead st) as [|d s'] eqn:E; [discriminate|].
    destruct (Re.is_space d) eqn:Hd; [|discriminate].
    exists (Re.advance st s'). split; [|exact H]. simpl. now exists d, s'.
  - destruct (Re.bol st) eqn:E; [|discriminate]. exists st. simpl. auto.
  - destruct (Re.ahead st) as [|d [|d' s']] eqn:E; try discriminate.
    + exists st. simpl. auto.
    + destruct (N.eqb_spec d 10); [subst d|discriminate].
      exists st. simpl. auto.
  - apply IHa in H as [mid [Ha H]]. apply IHb in H as [st' [Hb H]].
    exists st'. split; [|exact H]. simpl. now exists mid.
  - destruct (Re.rmatch a st k) as [y|] eqn:E.
    + injection H as ->. apply IHa in E as [st' [Ha H]].
      exists st'. simpl. auto.
    + apply IHb in H as [st' [Hb H]]. exists st'. simpl. auto.
  - apply IHa in H as [mid [Ha H]].
    exists (Re.capture n st mid). split; [|exact H]. simpl. now exists mid.
Qed.

Lemma rmatch_lit_seq (A : Type) (p : str) (tl : Re.regex) :
  forall (st : Re.mstate) (k : Re.mstate -> option A),
    Re.rmatch (lit_seq p tl) st k =
    if starts_with p (Re.ahead st) then Re.rmatch tl (adv p st) k else None.
Proof.
  induction p as [|c p IH]; intros st k; simpl; [reflexivity|].
  destruct (Re.ahead st) as [|d s'] eqn:E; [reflexivity|].
  rewrite (N.eqb_sym c d). destruct (d =? c)%N; [|reflexivity].
  simpl. rewrite IH. reflexivity.
Qed.

Lemma den_lit_seq (p : str) (tl : Re.regex) :
  forall st st', den (lit_seq p tl) st st' ->
    starts_with p (Re.ahead st) = true /\ den tl (adv p st) st'.
Proof.
  induction p as [|c p IH]; intros st st' H; simpl in *; [auto|].
  destruct H as [mid [[s' [E ->]] H]]. rewrite E, N.eqb_refl. simpl.
  apply IH in H as [H1 H2]. auto.
Qed.

Lemma adv_fields (p : str) :
  forall st, Re.used (adv p st) = Re.used st + length p /\
             Re.ahead (adv p st) = skipn (length p) (Re.ahead st) /\
             Re.caps (adv p st) = Re.caps st.
Proof.
  induction p as [|c p IH]; intros st; simpl.
  - rewrite Nat.add_0_r. auto.
  - destruct (IH (Re.advance st (tl (Re.ahead st)))) as [H1 [H2 H3]].
    rewrite H1, H2, H3. simpl. split; [lia|]. split; [|reflexivity].
    destruct (Re.ahead st); [|reflexivity]. simpl. apply skipn_nil.
Qed.

Lemma expand_chars (r : str) (cs : list (nat * str)) :
  Re.expand (map Re.TChr r) cs = r.
Proof. induction r as [|c r IH]; simpl; [|rewrite IH]; reflexivity. Qed.

(** The matcher of a literal pattern finds the literal text. *)
Lemma matcher_literal (p r : str) (b : bool) (s : str) :
  Re.matcher (lit_re p) (map Re.TChr r) b s = literal p r b s.
Proof.
  unfold Re.matcher, Re.match_here, lit_re, literal.
  rewrite rmatch_lit_seq. simpl.
  destruct (starts_with p s); [|reflexivity]. simpl.
  destruct (adv_fields p (Re.MState b 0 s [])) as [H1 [_ H3]].
  rewrite H1, H3, expand_chars. reflexivity.
Qed.

Lemma literal_rule_sub (rule : str * str) (a c s : str) :
  literal_rule rule a c ->
  Re.sub (fst rule) (snd rule) s =
  Ok (Re.sub_scan (literal (a ++ c) (a ++ ide ++ c)) true 0 s).
Proof.
  intros [Hc [Ht [Hr _]]]. unfold Re.sub. rewrite Hc, Ht. f_equal.
  rewrite <- Hr. apply sub_scan_ext. intros. apply matcher_literal.
Qed.

Lemma literal_rule_count (rule : str * str) (a c s : str) :
  literal_rule rule a c ->
  Re.findall_len (fst rule) s =
  Ok (Re.count_scan (literal (a ++ c) (a ++ ide ++ c)) true 0 s).
Proof.
  intros [Hc _]. unfold Re.findall_len. rewrite Hc. f_equal.
  apply count_scan_ext. intros b t.
  change (@nil Re.titem) with (map Re.TChr []).
  rewrite matcher_literal. unfold literal.
  now destruct (starts_with (a ++ c) t).
Qed.

Lemma step_literal (rule : str * str) (a c s : str) :
  literal_rule rule a c ->
  step rule s = Re.sub_scan (literal (a ++ c) (a ++ ide ++ c)) true 0 s.
Proof. intros H. unfold step. now rewrite (literal_rule_sub _ _ _ s H). Qed.

(** The thirteen rules before the general one are literal. *)
Lemma literal_rules :
  Forall (fun rule => literal_rule rule (before_ide rule) (after_ide rule))
         (firstn 13 replacements).
Proof.
  unfold replacements. cbn [firstn].
  repeat (apply Forall_cons;
          [split; [vm_compute; reflexivity|];
           split; [vm_compute; reflexivity|];
           split; [vm_compute; reflexivity|];
           split; vm_compute; discriminate|]).
  apply Forall_nil.
Qed.

(** ** The general rule *)

Lemma general_compile : Re.compile (fst general_rule) = Some general_re.
Proof. vm_compute. reflexivity. Qed.

(** A delimiter group takes one character or none, and captures it. *)
Lemma den_delimiter (edge : Re.regex) (n : nat) (st m : Re.mstate) :
  (forall st' m', den edge st' m' -> m' = st') ->
  den (delimiter edge) st m ->
  exists d, length d <= 1 /\
    Re.ahead st = d ++ Re.ahead (Re.capture n st m) /\
    Re.used (Re.capture n st m) = Re.used st + length d /\
    Re.caps (Re.capture n st m) = (n, d) :: Re.caps st.
Proof.
  intros He H.
  assert (Hm : (exists d s', Re.ahead st = d :: s' /\ m = Re.advance st s')
               \/ m = st).
  { destruct H as [H|[H|H]]; simpl in H.
    - destruct H as [mid [[d [s' [E [_ ->]]]] ->]]. left. now exists d, s'.
    - destruct H as [mid [H ->]]. right. now apply He.
    - destruct H as [mid [[s' [E ->]] ->]]. left. now exists 34%N, s'. }
  destruct Hm as [[d [s' [E ->]]]| ->]; unfold Re.capture, Re.advance;
    cbn [Re.ahead Re.used Re.caps Re.bol].
  - exists [d]. rewrite E.
    replace (S (Re.used st) - Re.used st) with 1 by lia.
    simpl. repeat split; [lia | lia].
  - exists []. rewrite Nat.sub_diag. simpl. repeat split; lia.
Qed.

(** A match of the general rule: a delimiter or the start, the name, a
    delimiter or the end. *)
Lemma general_match (b : bool) (s : str) (st : Re.mstate) :
  Re.match_here general_re b s = Some st ->
  exists d1 d2 rest,
    s = d1 ++ txt "claude-code" ++ d2 ++ rest /\
    Re.used st = length d1 + length (txt "claude-code") + length d2 /\
    Re.group 1 (Re.caps st) = d1 /\ Re.group 2 (Re.caps st) = d2.
Proof.
  intros E.
  unfold Re.match_here in E. apply rmatch_sound in E as [st' [Hd E]].
  injection E as ->.
  destruct Hd as [st1 [[m1 [H1 ->]] Hd]].
  apply den_lit_seq in Hd as [Hcc [st2 [[m2 [H2 ->]] ->]]].
  apply (den_delimiter _ 1) in H1 as [d1 [_ [A1 [U1 C1]]]];
    [|now intros ? ? [_ ->]].
  apply (den_delimiter _ 2) in H2 as [d2 [_ [A2 [U2 C2]]]];
    [|now intros ? ? [_ ->]].
  set (s1 := Re.capture 1 _ m1) in *.
  destruct (adv_fields (txt "claude-code") s1) as [U [A C]].
  set (s2 := Re.capture 2 _ m2) in *.
  apply starts_with_skipn in Hcc.
  exists d1, d2, (Re.ahead s2). repeat split.
  - cbn [Re.ahead] in A1. rewrite A1, Hcc at 1. do 2 f_equal.
    rewrite <- A. exact A2.
  - rewrite U2, U, U1. reflexivity.
  - rewrite C2, C, C1. reflexivity.
  - rewrite C2. reflexivity.
Qed.

(** A match of the general rule is replaced by itself with [ide] behind
    its "claude-code". *)
Lemma general_inserting :
  inserting (Re.matcher general_re (Re.template (snd general_rule))).
Proof.
  intros b s n e H. unfold Re.matcher in H.
  destruct (Re.match_here general_re b s) as [st|] eqn:E; [|discriminate].
  injection H as <- <-.
  apply general_match in E as [d1 [d2 [rest [-> [U [G1 G2]]]]]].
  rewrite U, G1, G2.
  rewrite !length_app. split; [simpl; lia|]. split; [lia|].
  exists (d1 ++ txt "claude-code"), d2. split.
  - rewrite 2 app_assoc. rewrite firstn_app.
    rewrite firstn_all2 by (rewrite !length_app; lia).
    replace (_ - _) with 0 by (rewrite !length_app; lia).
    rewrite firstn_O, app_nil_r. reflexivity.
  - rewrite app_nil_r, <- app_assoc. reflexivity.
Qed.

Lemma step_general (s : str) :
  step general_rule s =
  Re.sub_scan (Re.matcher general_re (Re.template (snd general_rule))) true 0 s.
Proof. unfold step, Re.sub. now rewrite general_compile. Qed.

(** Every rule of the script only inserts [ide]. *)
Lemma step_ins (rule : str * str) (s : str) :
  In rule replacements -> ins s (step rule s).
Proof.
  intros H.
  assert (Hr : In rule (firstn 13 replacements) \/ rule = general_rule).
  { assert (H' : In rule (firstn 13 replacements ++ skipn 13 replacements))
      by (rewrite firstn_skipn; exact H).
    apply in_app_or in H'. destruct H' as [H'|H']; [left; exact H'|right].
    unfold replacements in H'. cbn [skipn] in H'.
    destruct H' as [H'|[]]. symmetry. exact H'. }
  destruct Hr as [Hr| ->].
  - pose proof literal_rules as L. rewrite Forall_forall in L.
    specialize (L rule Hr). rewrite (step_literal _ _ _ s L).
    destruct L as [_ [_ [_ [Ha Hc]]]].
    apply sub_scan_ins, literal_inserting; assumption.
  - rewrite step_general. apply sub_scan_ins, general_inserting.
Qed.

Lemma pipeline_cons (rule : str * str) (rules : list (str * str)) (s : str) :
  pipeline (rule :: rules) s = pipeline rules (step rule s).
Proof. reflexivity. Qed.

Lemma pipeline_app (r1 r2 : list (str * str)) (s : str) :
  pipeline (r1 ++ r2) s = pipeline r2 (pipeline r1 s).
Proof. unfold pipeline. apply fold_left_app. Qed.

(** No rule of the script brings an occurrence of a safe text. *)
Lemma pipeline_no_new (q : str) (rules : list (str * str)) :
  safe_tail q = true -> safe_head q = true ->
  incl rules replacements ->
  forall s, contains q (pipeline rules s) = true -> contains q s = true.
Proof.
  intros Ht Hh. induction rules as [|rule rules IH]; intros Hi s H.
  - exact H.
  - simpl in H. apply IH in H; [|intros x Hx; apply Hi; now right].
    apply (ins_contains q s (step rule s)); try assumption.
    apply step_ins, Hi. now left.
Qed.

(** ** The loop over the rules *)

Lemma Ok_inj (A : Type) (a b : A) : Ok a = Ok b -> a = b.
Proof. intros H. now injection H. Qed.

Lemma pair_inj (A B : Type) (a a' : A) (b b' : B) :
  (a, b) = (a', b') -> a = a' /\ b = b'.
Proof. intros H. now injection H. Qed.

Lemma in_skipn_in (X : Type) (n : nat) (l : list X) (x : X) :
  In x (skipn n l) -> In x l.
Proof.
  revert l. induction n as [|n IH]; intros [|y l] H; simpl in *; auto.
Qed.

Lemma in_firstn_in (X : Type) (n : nat) (l : list X) (x : X) :
  In x (firstn n l) -> In x l.
Proof.
  revert l. induction n as [|n IH]; intros [|y l] H; simpl in *;
    try contradiction. destruct H; auto.
Qed.

Lemma apply_rules_ok (rules : list (str * str)) :
  Forall (fun rule => Re.compile (fst rule) <> None) rules ->
  forall content acc,
    apply_rules rules content acc =
    Ok (pipeline rules content, acc ++ change_lines rules content).
Proof.
  induction 1 as [|[pattern replacement] rules Hc _ IH]; intros content acc.
  - simpl. now rewrite app_nil_r.
  - simpl in Hc. cbn [apply_rules change_lines pipeline fold_left].
    unfold step, matches, Re.sub, Re.findall_len. cbn [fst snd].
    destruct (Re.compile pattern) as [r|]; [clear Hc|congruence].
    set (new_content := Re.sub_scan _ true 0 content).
    destruct (str_eqb new_content content) eqn:E; cbn [negb].
    + apply str_eqb_eq in E. rewrite IH. f_equal. fold (pipeline rules).
      now rewrite E.
    + rewrite IH, <- app_assoc. reflexivity.
Qed.

Lemma replacements_compile :
  Forall (fun rule => Re.compile (fst rule) <> None) replacements.
Proof.
  unfold replacements.
  repeat (apply Forall_cons; [vm_compute; discriminate|]). apply Forall_nil.
Qed.

Lemma rewrite_ok (content : str) :
  apply_rules replacements content [] =
  Ok (pipeline replacements content, change_lines replacements content).
Proof. apply (apply_rules_ok _ replacements_compile). Qed.

(** The content that reaches rule [j] is what the loop gives for the
    rules before it. *)
Lemma stage_ok (j : nat) (content : str) :
  apply_rules (firstn j replacements) content [] =
  Ok (stage j content, change_lines (firstn j replacements) content).
Proof.
  apply apply_rules_ok. apply Forall_forall. intros rule H.
  apply in_firstn_in in H. revert rule H. apply Forall_forall.
  exact replacements_compile.
Qed.

(** A rule that counts no match changes nothing. *)
Lemma no_match_no_change (pattern repl content : str) :
  Re.findall_len pattern content = Ok 0 ->
  Re.sub pattern repl content = Ok content.
Proof.
  unfold Re.findall_len, Re.sub.
  destruct (Re.compile pattern) as [r|]; [|discriminate].
  intros H. injection H as H. f_equal. apply count_zero_sub.
  etransitivity; [|exact H].
  apply count_scan_ext. intros b s. unfold Re.matcher.
  now destruct (Re.match_here r b s).
Qed.

Lemma matches_zero_step (rule : str * str) (content : str) :
  Re.findall_len (fst rule) content = Ok 0 -> step rule content = content.
Proof.
  intros H. unfold step. now rewrite (no_match_no_change _ (snd rule) _ H).
Qed.

(** A literal rule finds nothing where its text does not occur. *)
Lemma literal_rule_absent (rule : str * str) (a c s : str) :
  literal_rule rule a c -> contains (a ++ c) s = false ->
  Re.findall_len (fst rule) s = Ok 0.
Proof.
  intros L H. rewrite (literal_rule_count _ _ _ s L). f_equal.
  now apply literal_count_zero.
Qed.

(** After a settling rule of the script its text is gone, for the rest of
    the rules and for any further rules of the script. *)
Lemma settled_gone (j : nat) (more : list (str * str)) (s : str) :
  j < length replacements -> settles (rule_at j) ->
  incl more replacements ->
  contains (sought (rule_at j)) (pipeline more (pipeline replacements s)) = false.
Proof.
  intros Hj [L [Hp [Ht [Hh Hu]]]] Hm.
  destruct (contains _ _) eqn:Hc; [exfalso|reflexivity].
  apply pipeline_no_new in Hc; [|assumption..].
  rewrite <- (firstn_skipn j replacements) in Hc at 1.
  rewrite pipeline_app in Hc.
  assert (Hs : skipn j replacements = rule_at j :: skipn (S j) replacements).
  { unfold rule_at. clear -Hj. revert j Hj.
    induction replacements as [|x l IH]; intros j Hj; simpl in Hj; [lia|].
    destruct j as [|j]; [reflexivity|]. simpl. apply IH. lia. }
  rewrite Hs, pipeline_cons in Hc.
  apply pipeline_no_new in Hc; [|assumption..|].
  - rewrite (step_literal _ _ _ _ L), <- Hp in Hc.
    destruct L as [_ [_ [_ [Ha Hc']]]].
    rewrite literal_kills in Hc; [discriminate|try assumption..];
      rewrite Hp; assumption.
  - intros x Hx. now apply in_skipn_in in Hx.
Qed.

Ltac settle :=
  split; [split; [vm_compute; reflexivity|];
          split; [vm_compute; reflexivity|];
          split; [vm_compute; reflexivity|];
          split; vm_compute; discriminate|];
  repeat split; vm_compute; reflexivity.

(** The rules that settle: all but the help-tag rule, the rule of
    "/claude-code/" and the general rule. *)
Lemma settling_rules (j : nat) :
  j < 14 -> j <> 9 -> j <> 10 -> j <> 13 -> settles (rule_at j).
Proof.
  intros Hj H9 H10 H13.
  do 14 (destruct j as [|j]; [try lia; settle|]). lia.
Qed.

Lemma settled_absent (j : nat) (more : list (str * str)) (s : str) :
  j < length replacements -> settles (rule_at j) -> incl more replacements ->
  Re.findall_len (fst (rule_at j))
                 (pipeline more (pipeline replacements s)) = Ok 0.
Proof.
  intros Hj Hs Hm. pose proof (settled_gone j more s Hj Hs Hm) as H.
  destruct Hs as [L [Hp _]].
  apply (literal_rule_absent _ _ _ _ L). now rewrite Hp.
Qed.

Lemma idle_rules (rules : list (str * str)) (t : str) :
  Forall (fun rule => step rule t = t) rules ->
  pipeline rules t = t /\ change_lines rules t = [].
Proof.
  induction 1 as [|rule rules H _ [IH1 IH2]]; [now split|].
  rewrite pipeline_cons. cbn [change_lines].
  rewrite H, str_eqb_refl. auto.
Qed.

Lemma forall_rules (P : str * str -> Prop) :
  (forall j, j < 14 -> P (rule_at j)) -> Forall P replacements.
Proof.
  intros H. unfold replacements.
  repeat (apply Forall_cons;
          [match goal with
           | |- P ?r =>
             first [ exact (H 0 ltac:(lia)) | exact (H 1 ltac:(lia))
                   | exact (H 2 ltac:(lia)) | exact (H 3 ltac:(lia))
                   | exact (H 4 ltac:(lia)) | exact (H 5 ltac:(lia))
                   | exact (H 6 ltac:(lia)) | exact (H 7 ltac:(lia))
                   | exact (H 8 ltac:(lia)) | exact (H 9 ltac:(lia))
                   | exact (H 10 ltac:(lia)) | exact (H 11 ltac:(lia))
                   | exact (H 12 ltac:(lia)) | exact (H 13 ltac:(lia)) ]
           end|]).
  apply Forall_nil.
Qed.


(** ** Methods *)

Lemma for_each_log (entries : list str) (w : world) :
  for_each entries log w = (Ok tt, logged w entries).
Proof.
  revert w. induction entries as [|x l IH]; intros [n c].
  - unfold logged. simpl. now rewrite app_nil_r.
  - cbn [for_each]. unfold bind, log at 1. cbn [fs changes].
    rewrite IH. unfold logged. cbn [fs changes]. now rewrite <- app_assoc.
Qed.

Lemma logged_logged (w : world) (a b : list str) :
  logged (logged w a) b = logged w (a ++ b).
Proof. unfold logged. simpl. now rewrite app_assoc. Qed.

(** [replace_in_file] never raises, and does what its case analysis
    says. *)
Lemma replace_in_file_eq (self : RenameProject) (p : path) (w : world) :
  replace_in_file self p w = (Ok tt, replace_in_file_spec self p w).
Proof.
  unfold replace_in_file, replace_in_file_spec, try_except, bind, get_fs, lift.
  destruct (read_text (fs w) p) as [content|e]; [|reflexivity].
  rewrite rewrite_ok. unfold update_entries.
  destruct (str_eqb (pipeline replacements content) content); cbn [negb orb].
  - unfold ret, logged. rewrite app_nil_r. now destruct w.
  - unfold log at 1. rewrite for_each_log. unfold logged. cbn [fs changes].
    rewrite <- app_assoc. cbn [app].
    destruct (dry_run self); cbn [negb]; [reflexivity|].
    unfold fs_op, bind, get_fs, lift, set_fs. cbn [fs changes].
    destruct (write_text (fs w) p (pipeline replacements content));
      [reflexivity|].
    reflexivity.
Qed.

Lemma for_each_replace (self : RenameProject) (files : list path) (w : world) :
  for_each files (replace_in_file self) w = (Ok tt, process_spec self files w).
Proof.
  revert w. induction files as [|p files IH]; intros w; [reflexivity|].
  cbn [for_each]. unfold bind. rewrite replace_in_file_eq. apply IH.
Qed.

Lemma process_all_files_eq (self : RenameProject) (w : world) :
  process_all_files self w =
  (Ok tt, process_spec self (collect (fs w) [])
                       (logged w [processing_entry (collect (fs w) [])])).
Proof.
  unfold process_all_files, bind, get_fs. unfold log at 1.
  apply for_each_replace.
Qed.

(** The patch of the git configuration never raises, and does what the
    specification says. *)
Lemma update_git_remote_eq (self : RenameProject) (w : world) :
  update_git_remote self w = (Ok tt, git_patch_spec self w).
Proof.
  unfold update_git_remote, git_patch_spec, try_except, bind, get_fs, lift.
  fold git_config. unfold old_id, new_id.
  destruct (path_exists (fs w) git_config); [|reflexivity].
  destruct (read_text (fs w) git_config) as [content|e]; [|reflexivity].
  destruct (contains (txt "claude-code.nvim") content); [|reflexivity].
  unfold log at 1. destruct (dry_run self); cbn [negb]; [reflexivity|].
  unfold fs_op, bind, get_fs, lift, set_fs. cbn [fs changes].
  destruct (write_text (fs w) git_config _); reflexivity.
Qed.

Lemma run_eq (self : RenameProject) (w : world) :
  run self w =
  match rename_paths self (logged w [step1]) with
  | (Ok _, w1) => (Ok tt, after_renames self w1)
  | (Raise e, w1) => (Raise e, w1)
  end.
Proof.
  unfold run. unfold bind at 1. unfold log at 1. unfold bind at 1.
  fold (logged w [step1]).
  destruct (rename_paths self _) as [[[]|e] w1]; [|reflexivity].
  unfold bind at 1. unfold log at 1. unfold bind at 1.
  rewrite process_all_files_eq. unfold bind at 1. unfold log at 1.
  apply update_git_remote_eq.
Qed.

(** *** A run that only previews *)

Lemma replace_spec_preview (self : RenameProject) (p : path) (w : world) :
  dry_run self = true -> fs (replace_in_file_spec self p w) = fs w.
Proof.
  intros H. unfold replace_in_file_spec.
  destruct (read_text (fs w) p); [|reflexivity].
  now rewrite H, orb_true_r.
Qed.

Lemma process_spec_preview (self : RenameProject) (files : list path) (w : world) :
  dry_run self = true -> fs (process_spec self files w) = fs w.
Proof.
  intros H. revert w. induction files as [|p files IH]; intros w; [reflexivity|].
  unfold process_spec in *. cbn [fold_left]. rewrite IH.
  now apply replace_spec_preview.
Qed.

Lemma git_patch_preview (self : RenameProject) (w : world) :
  dry_run self = true -> fs (git_patch_spec self w) = fs w.
Proof.
  intros H. unfold git_patch_spec. rewrite H.
  destruct (path_exists (fs w) git_config); [|reflexivity].
  destruct (read_text (fs w) git_config); [|reflexivity].
  now destruct (contains _ _).
Qed.

Lemma after_renames_preview (self : RenameProject) (w : world) :
  dry_run self = true -> fs (after_renames self w) = fs w.
Proof.
  intros H. unfold after_renames.
  rewrite git_patch_preview by exact H. cbn [logged fs].
  now rewrite process_spec_preview.
Qed.

(** In a preview, [rename_paths] returns, leaves the tree and logs one
    entry for each rule. *)
Lemma rename_rules_preview (self : RenameProject) (rules : list (str * str))
      (w : world) :
  dry_run self = true ->
  for_each rules (rename_rule self) w =
  (Ok tt, logged w (map (rename_entry (fs w)) rules)).
Proof.
  intros H. revert w. induction rules as [|[o n] rules IH]; intros w.
  - unfold logged. cbn. rewrite app_nil_r. now destruct w.
  - cbn [for_each map]. unfold bind at 1.
    assert (E : rename_rule self (o, n) w =
                (Ok tt, logged w [rename_entry (fs w) (o, n)])).
    { unfold rename_rule, rename_entry, bind, get_fs. cbn [fst snd].
      destruct (path_exists (fs w) (parts o)); [|reflexivity].
      unfold log at 1. rewrite H. reflexivity. }
    rewrite E, IH, logged_logged. reflexivity.
Qed.

(** ** The file system *)

Lemma assoc_change_same (x : name) (f : node -> node) (es : list (name * node)) :
  assoc x (change x f es) = option_map f (assoc x es).
Proof.
  induction es as [|[y c] es IH]; [reflexivity|]. simpl.
  destruct (str_eqb x y) eqn:E; simpl; rewrite E; [reflexivity | exact IH].
Qed.

Lemma assoc_change_other (x y : name) (f : node -> node)
      (es : list (name * node)) :
  x <> y -> assoc x (change y f es) = assoc x es.
Proof.
  intros N. induction es as [|[z c] es IH]; [reflexivity|]. simpl.
  destruct (str_eqb y z) eqn:E; simpl.
  - apply str_eqb_eq in E. subst z.
    apply str_eqb_neq in N. now rewrite N.
  - now rewrite IH.
Qed.

Lemma assoc_app (x : name) (es es' : list (name * node)) :
  assoc x (es ++ es') =
  match assoc x es with Some c => Some c | None => assoc x es' end.
Proof.
  induction es as [|[y c] es IH]; [reflexivity|]. simpl.
  now destruct (str_eqb x y).
Qed.

Lemma assoc_drop_other (x y : name) (es : list (name * node)) :
  x <> y -> assoc x (drop_entry y es) = assoc x es.
Proof.
  intros N. induction es as [|[z c] es IH]; [reflexivity|]. simpl.
  destruct (str_eqb y z) eqn:E; simpl.
  - apply str_eqb_eq in E. subst z.
    apply str_eqb_neq in N. now rewrite N.
  - now rewrite IH.
Qed.

Lemma change_same (x : name) (c : node) (es : list (name * node)) :
  assoc x es = Some c -> change x (fun _ => c) es = es.
Proof.
  induction es as [|[y d] es IH]; [reflexivity|]. simpl.
  destruct (str_eqb x y) eqn:E.
  - intros H. injection H as ->. reflexivity.
  - intros H. now rewrite IH.
Qed.

Lemma parent_is_dir (d : path) (a : name) (n x : node) :
  lookup n (d ++ [a]) = Some x -> is_dir n d = true.
Proof.
  unfold is_dir. revert n. induction d as [|y d IH]; intros n H; simpl in *.
  - now destruct n.
  - destruct n as [|es]; [discriminate|].
    destruct (assoc y es) as [c|]; [|discriminate]. now apply IH.
Qed.

(** [mkdir] of a directory that is there changes nothing. *)
Lemma mkdir_p_dir (d : path) (n : node) :
  is_dir n d = true -> mkdir_p n d = Ok n.
Proof.
  unfold is_dir. revert n. induction d as [|y d IH]; intros n H; simpl in *.
  - now destruct n.
  - destruct n as [|es]; [discriminate|].
    destruct (assoc y es) as [c|] eqn:E; [|discriminate].
    rewrite (IH c H). now rewrite (change_same _ _ _ E).
Qed.

(** A node renamed in its directory is found under its new name. *)
Lemma rename_sibling (d : path) (a b : name) (n x : node) :
  lookup n (d ++ [a]) = Some x -> lookup n (d ++ [b]) = None ->
  exists n', put (remove n (d ++ [a])) (d ++ [b]) x = Some n' /\
             lookup n' (d ++ [b]) = Some x.
Proof.
  revert n. induction d as [|y d IH]; intros n Ha Hb.
  - simpl in *. destruct n as [|es]; [discriminate|].
    destruct (assoc a es) as [c|] eqn:Ea; [|discriminate].
    destruct (assoc b es) as [c'|] eqn:Eb; [discriminate|].
    assert (N : b <> a) by (intros ->; congruence).
    injection Ha as ->. cbn [app remove put].
    rewrite (assoc_drop_other _ _ _ N), Eb.
    eexists. split; [reflexivity|]. simpl.
    rewrite assoc_app, (assoc_drop_other _ _ _ N), Eb. simpl.
    now rewrite str_eqb_refl.
  - change ((y :: d) ++ [a]) with (y :: d ++ [a]) in *.
    change ((y :: d) ++ [b]) with (y :: d ++ [b]) in *.
    cbn [lookup] in Ha, Hb. destruct n as [|es]; [discriminate|].
    destruct (assoc y es) as [c|] eqn:Ey; [|discriminate].
    destruct (IH c Ha Hb) as [c' [Hp Hl]].
    assert (R : remove (Dir es) (y :: d ++ [a]) =
                Dir (change y (fun c => remove c (d ++ [a])) es)).
    { simpl. destruct (d ++ [a]) eqn:E; [|reflexivity].
      now destruct d. }
    rewrite R.
    assert (P : forall m, put (Dir m) (y :: d ++ [b]) x =
                match assoc y m with
                | Some c =>
                  match put c (d ++ [b]) x with
                  | Some c' => Some (Dir (change y (fun _ => c') m))
                  | None => None
                  end
                | None => None
                end).
    { intros m. simpl. destruct (d ++ [b]) eqn:E; [now destruct d|reflexivity]. }
    rewrite P, assoc_change_same, Ey. simpl. rewrite Hp.
    eexists. split; [reflexivity|]. cbn [lookup].
    rewrite !assoc_change_same, Ey. simpl. exact Hl.
Qed.


(** ** The lines of [changes_made] *)

Lemma change_lines_in (rules : list (str * str)) :
  forall (c line : str),
    In line (change_lines rules c) <->
    exists j rule,
      nth_error rules j = Some rule /\
      step rule (pipeline (firstn j rules) c) <> pipeline (firstn j rules) c /\
      line = change_line (fst rule) (snd rule)
                         (matches rule (pipeline (firstn j rules) c)).
Proof.
  induction rules as [|rule rules IH]; intros c line.
  - simpl. split; [contradiction|]. intros [[|j] [r [H _]]]; discriminate.
  - cbn [change_lines]. rewrite in_app_iff, IH. split.
    + intros [H|[j [r [Hn [Hs Hl]]]]].
      * destruct (str_eqb (step rule c) c) eqn:E; [contradiction|].
        destruct H as [<-|[]]. exists 0, rule.
        apply str_eqb_neq in E. now repeat split.
      * exists (S j), r. cbn [nth_error firstn]. rewrite pipeline_cons.
        now repeat split.
    + intros [[|j] [r [Hn [Hs Hl]]]].
      * left. injection Hn as <-. cbn [firstn] in *.
        change (pipeline [] c) with c in *.
        apply str_eqb_neq in Hs. rewrite Hs. now left.
      * right. exists j, r. cbn [nth_error firstn] in *.
        rewrite pipeline_cons in *. now repeat split.
Qed.

Lemma nth_error_rule_at (j : nat) (rule : str * str) :
  nth_error replacements j = Some rule <-> j < 14 /\ rule = rule_at j.
Proof.
  split.
  - intros H. assert (Hj : j < length replacements).
    { apply nth_error_Some. congruence. }
    split; [exact Hj|]. unfold rule_at.
    apply nth_error_nth with (d := ([], [])) in H. now symmetry.
  - intros [Hj ->]. unfold rule_at. apply nth_error_nth'. exact Hj.
Qed.

Lemma sub_ok (j : nat) (x : str) :
  j < 14 -> Re.sub (fst (rule_at j)) (snd (rule_at j)) x = Ok (step (rule_at j) x).
Proof.
  intros Hj. unfold step.
  assert (H : Re.compile (fst (rule_at j)) <> None).
  { pose proof replacements_compile as F. rewrite Forall_forall in F.
    apply F. apply nth_In. exact Hj. }
  unfold Re.sub. now destruct (Re.compile (fst (rule_at j))).
Qed.

Lemma findall_ok (j : nat) (x : str) :
  j < 14 -> Re.findall_len (fst (rule_at j)) x = Ok (matches (rule_at j) x).
Proof.
  intros Hj. unfold matches.
  assert (H : Re.compile (fst (rule_at j)) <> None).
  { pose proof replacements_compile as F. rewrite Forall_forall in F.
    apply F. apply nth_In. exact Hj. }
  unfold Re.findall_len. now destruct (Re.compile (fst (rule_at j))).
Qed.

(** ** The steps of [rename_paths] *)

Lemma rename_rule_missing (self : RenameProject) (rule : str * str) (w : world) :
  path_exists (fs w) (parts (fst rule)) = false ->
  rename_rule self rule w = (Ok tt, logged w [missing_entry rule]).
Proof.
  intros H. destruct rule as [o n]. unfold rename_rule, bind, get_fs.
  cbn [fst] in H. now rewrite H.
Qed.

Lemma rename_rule_preview (self : RenameProject) (rule : str * str) (w : world) :
  path_exists (fs w) (parts (fst rule)) = true -> dry_run self = true ->
  rename_rule self rule w = (Ok tt, logged w [renaming_entry rule]).
Proof.
  intros H D. destruct rule as [o n]. unfold rename_rule, bind, get_fs.
  cbn [fst] in H. rewrite H. unfold log at 1. now rewrite D.
Qed.

Lemma rename_rule_apply (self : RenameProject) (rule : str * str) (w : world) :
  path_exists (fs w) (parts (fst rule)) = true -> dry_run self = false ->
  rename_rule self rule w =
  let w' := logged w [renaming_entry rule] in
  match mkdir_p (fs w) (removelast (parts (snd rule))) with
  | Raise e => (Raise e, w')
  | Ok n1 =>
    match shutil_move n1 (parts (fst rule)) (parts (snd rule)) with
    | Raise e => (Raise e, World n1 (changes w'))
    | Ok n2 => (Ok tt, World n2 (changes w'))
    end
  end.
Proof.
  intros H D. destruct rule as [o n]. unfold rename_rule, bind, get_fs.
  cbn [fst snd] in *. rewrite H. unfold log at 1. rewrite D. cbn [negb].
  unfold fs_op, bind, get_fs, lift, set_fs. cbn [fs changes].
  destruct (mkdir_p (fs w) (removelast (parts n))) as [n1|e]; [|reflexivity].
  cbn [fs changes].
  now destruct (shutil_move n1 (parts o) (parts n)).
Qed.


(** The rules of the script rename within one directory. *)
Lemma path_renames_siblings (rule : str * str) :
  In rule path_renames ->
  exists d a b, parts (fst rule) = d ++ [a] /\ parts (snd rule) = d ++ [b] /\
                removelast (parts (snd rule)) = d.
Proof.
  intros [<-|[<-|[<-|[]]]].
  - now exists [txt "lua"], (txt "claude-code"), (txt "claude-code-ide").
  - now exists [txt "doc"], (txt "claude-code.txt"), (txt "claude-code-ide.txt").
  - now exists [txt "plugin"], (txt "claude-code.lua"),
               (txt "claude-code-ide.lua").
Qed.

(** ** The walk *)

Lemma node_induction (P : node -> Prop) :
  (forall data wr, P (File data wr)) ->
  (forall es, Forall (fun e => P (snd e)) es -> P (Dir es)) ->
  forall n, P n.
Proof.
  intros Hf Hd.
  fix IH 1. intros [data wr|es].
  - apply Hf.
  - apply Hd. induction es as [|[x c] es IHes]; constructor.
    + apply IH.
    + exact IHes.
Qed.

Lemma collect_dir (es : list (name * node)) (here : path) :
  collect (Dir es) here =
  filter should_process_file (map (fun x => here ++ [x]) (file_names es)) ++
  collect_dirs here es.
Proof.
  cbn [collect]. f_equal. unfold collect_dirs.
  induction es as [|[d c] es IH]; [reflexivity|].
  cbn [flat_map fst snd]. now rewrite IH.
Qed.

Lemma mem_in (x : str) (xs : list str) : mem x xs = true <-> In x xs.
Proof.
  unfold mem. rewrite existsb_exists. split.
  - intros [y [Hy E]]. apply str_eqb_eq in E. now subst.
  - intros H. exists x. split; [exact H | apply str_eqb_refl].
Qed.

Lemma assoc_in (x : name) (c : node) (es : list (name * node)) :
  assoc x es = Some c -> In (x, c) es.
Proof.
  induction es as [|[y d] es IH]; [discriminate|]. simpl.
  destruct (str_eqb x y) eqn:E.
  - intros H. injection H as ->. apply str_eqb_eq in E. subst. now left.
  - intros H. right. now apply IH.
Qed.

Lemma in_assoc (x : name) (c : node) (es : list (name * node)) :
  distinct (map fst es) = true -> In (x, c) es -> assoc x es = Some c.
Proof.
  induction es as [|[y d] es IH]; [contradiction|]. simpl.
  intros Hd [H|H]; apply andb_true_iff in Hd as [Hm Hd].
  - injection H as -> ->. now rewrite str_eqb_refl.
  - destruct (str_eqb x y) eqn:E; [|now apply IH].
    apply str_eqb_eq in E. subst y. exfalso.
    apply negb_true_iff in Hm.
    assert (M : mem x (map fst es) = true).
    { apply mem_in. apply in_map_iff. now exists (x, c). }
    congruence.
Qed.

Lemma file_names_in (x : name) (es : list (name * node)) :
  In x (file_names es) <-> exists data wr, In (x, File data wr) es.
Proof.
  induction es as [|[y [d w|es']] es IH]; simpl.
  - split; [contradiction | intros [? [? []]]].
  - rewrite IH. split.
    + intros [->|[d' [w' H]]]; [exists d, w; now left|exists d', w'; now right].
    + intros [d' [w' [H|H]]]; [injection H as -> _ _; now left|].
      right. now exists d', w'.
  - rewrite IH. split.
    + intros [d' [w' H]]. exists d', w'. now right.
    + intros [d' [w' [H|H]]]; [discriminate|]. now exists d', w'.
Qed.

Lemma wf_dir (es : list (name * node)) :
  wf (Dir es) = true ->
  distinct (map fst es) = true /\ Forall (fun e => wf (snd e) = true) es.
Proof.
  cbn [wf]. intros H. apply andb_true_iff in H as [Hd Ha]. split; [exact Hd|].
  clear Hd. induction es as [|[x c] es IH]; constructor.
  - apply andb_true_iff in Ha as [Hc _]. exact Hc.
  - apply andb_true_iff in Ha as [_ Ha]. now apply IH.
Qed.

Lemma should_process_last (here p : path) :
  p <> [] -> should_process_file (here ++ p) = should_process_file p.
Proof.
  intros H. unfold should_process_file.
  assert (L : last (here ++ p) [] = last p []); [|now rewrite L].
  induction here as [|x here IH]; [reflexivity|].
  simpl app. destruct (here ++ p) eqn:E; [|rewrite <- IH; reflexivity].
  apply app_eq_nil in E as [_ E]. contradiction.
Qed.

(** The files [process_all_files] collects from a tree: the files the
    walk reaches that pass [should_process_file]. *)
Lemma collect_visited (n : node) :
  wf n = true ->
  forall here q,
    In q (collect n here) <->
    exists p, q = here ++ p /\ visited n p = true /\
              should_process_file p = true.
Proof.
  induction n as [data wr|es IH] using node_induction; intros W here q.
  - simpl. split; [contradiction|]. intros [[|x p] [_ [H _]]]; discriminate.
  - apply wf_dir in W as [Wd Wa].
    rewrite collect_dir, in_app_iff, filter_In, in_map_iff. split.
    + intros [[[x [<- Hx]] Hs]|H].
      * apply file_names_in in Hx as [data [wr Hx]].
        exists [x]. split; [reflexivity|].
        rewrite should_process_last in Hs by discriminate.
        split; [|exact Hs]. simpl. now rewrite (in_assoc _ _ _ Wd Hx).
      * unfold collect_dirs in H. apply in_flat_map in H as [[d c] [He H]].
        cbn [fst snd] in H. destruct c as [|es']; [contradiction|].
        destruct (keep_dir d) eqn:K; [|contradiction].
        rewrite Forall_forall in IH, Wa.
        apply (IH _ He (Wa _ He)) in H as [p [-> [Hv Hs]]].
        exists (d :: p). rewrite <- app_assoc. split; [reflexivity|].
        assert (Hp : p <> []) by (intros ->; discriminate).
        split.
        -- simpl. rewrite (in_assoc _ _ _ Wd He), K. exact Hv.
        -- change (d :: p) with ([d] ++ p).
           now rewrite (should_process_last [d] p Hp).
    + intros [[|x p] [-> [Hv Hs]]]; [discriminate|].
      cbn [visited] in Hv. destruct (assoc x es) as [c|] eqn:E; [|discriminate].
      apply assoc_in in E. destruct c as [data wr|es'].
      * destruct p; [|discriminate]. left. split.
        -- exists x. split; [reflexivity|]. apply file_names_in.
           now exists data, wr.
        -- now rewrite should_process_last by discriminate.
      * right. apply andb_true_iff in Hv as [K Hv].
        unfold collect_dirs. apply in_flat_map. exists (x, Dir es').
        split; [exact E|]. cbn [fst snd]. rewrite K.
        rewrite Forall_forall in IH, Wa.
        apply (IH _ E (Wa _ E)). exists p.
        change (here ++ x :: p) with (here ++ [x] ++ p).
        rewrite app_assoc. split; [reflexivity|]. split; [exact Hv|].
        assert (Hp : p <> []) by (intros ->; discriminate).
        change (x :: p) with ([x] ++ p) in Hs.
        now rewrite (should_process_last [x] p Hp) in Hs.
Qed.

(** The files collected pass [should_process_file], and lie in the
    directory walked, directly or below a directory that is kept. *)
Lemma collect_shape (n : node) :
  forall here q,
    In q (collect n here) ->
    should_process_file q = true /\
    exists p, q = here ++ p /\
              match p with
              | [] => False
              | [_] => True
              | d :: _ => keep_dir d = true
              end.
Proof.
  induction n as [data wr|es IH] using node_induction; intros here q H.
  - contradiction.
  - rewrite collect_dir, in_app_iff, filter_In, in_map_iff in H.
    destruct H as [[[x [<- Hx]] Hs]|H].
    + split; [exact Hs|]. now exists [x].
    + unfold collect_dirs in H. apply in_flat_map in H as [[d c] [He H]].
      cbn [fst snd] in H. destruct c as [|es']; [contradiction|].
      destruct (keep_dir d) eqn:K; [|contradiction].
      rewrite Forall_forall in IH.
      apply (IH _ He) in H as [Hs [p [-> Hp]]]. split; [exact Hs|].
      exists (d :: p). rewrite <- app_assoc. split; [reflexivity|].
      destruct p; [contradiction | exact K].
Qed.

Lemma kind_of_cons (es : list (name * node)) (x : name) (p : path) :
  kind_of (Dir es) (x :: p) =
  match assoc x es with Some c => kind_of c p | None => KNone end.
Proof. unfold kind_of. simpl. now destruct (assoc x es). Qed.

(** Writing a file changes nothing at any other path. *)
Lemma kind_update_other (q : path) :
  forall n p d w d' w',
    lookup n q = Some (File d w) -> p <> q ->
    kind_of (update n q (File d' w')) p = kind_of n p.
Proof.
  induction q as [|y q IH]; intros n p d w d' w' H N.
  - simpl in H. injection H as ->. destruct p as [|x p]; [congruence|].
    reflexivity.
  - simpl in H. destruct n as [|es]; [discriminate|].
    destruct (assoc y es) as [c|] eqn:E; [|discriminate].
    destruct p as [|x p]; [reflexivity|].
    cbn [update]. rewrite !kind_of_cons.
    destruct (str_eqb x y) eqn:Exy.
    + apply str_eqb_eq in Exy. subst x.
      rewrite assoc_change_same, E. simpl.
      apply (IH c p d w d' w' H). congruence.
    + apply str_eqb_neq in Exy. now rewrite assoc_change_other.
Qed.

Lemma kind_update_same (q : path) :
  forall n d w d' w',
    lookup n q = Some (File d w) ->
    kind_of (update n q (File d' w')) q = KFile d' w'.
Proof.
  induction q as [|y q IH]; intros n d w d' w' H.
  - reflexivity.
  - simpl in H. destruct n as [|es]; [discriminate|].
    destruct (assoc y es) as [c|] eqn:E; [|discriminate].
    cbn [update]. rewrite kind_of_cons, assoc_change_same, E. simpl.
    now apply (IH c d w).
Qed.

Lemma read_text_kind (n : node) (p : path) :
  read_text n p =
  match kind_of n p with
  | KFile data _ => data
  | KDir => Raise (txt "Is a directory")
  | KNone => Raise (txt "No such file or directory")
  end.
Proof. unfold read_text, kind_of. now destruct (lookup n p) as [[]|]. Qed.

Lemma path_exists_kind (n : node) (p : path) :
  path_exists n p = match kind_of n p with KNone => false | _ => true end.
Proof. unfold path_exists, kind_of. now destruct (lookup n p) as [[]|]. Qed.

Lemma write_text_ok (n n' : node) (p : path) (c : str) :
  write_text n p c = Ok n' ->
  exists d, lookup n p = Some (File d None) /\
            n' = update n p (File (Ok c) None).
Proof.
  unfold write_text. destruct (lookup n p) as [[d [e|]|]|]; try discriminate.
  intros H. injection H as <-. now exists d.
Qed.

(** What [replace_in_file] can do to the tree: nothing, or write the
    rewritten content of a file it has read. *)
Lemma replace_spec_fs (self : RenameProject) (q : path) (w : world) :
  fs (replace_in_file_spec self q w) = fs w \/
  exists c d, read_text (fs w) q = Ok c /\
              lookup (fs w) q = Some (File d None) /\
              fs (replace_in_file_spec self q w) =
              update (fs w) q (File (Ok (pipeline replacements c)) None).
Proof.
  unfold replace_in_file_spec.
  destruct (read_text (fs w) q) as [c|e] eqn:R; [|now left].
  destruct (str_eqb _ c || dry_run self); [now left|].
  destruct (write_text (fs w) q _) as [n|e] eqn:Wr; [|now left].
  right. apply write_text_ok in Wr as [d [L ->]]. now exists c, d.
Qed.

Lemma replace_spec_kind_other (self : RenameProject) (q p : path) (w : world) :
  p <> q ->
  kind_of (fs (replace_in_file_spec self q w)) p = kind_of (fs w) p.
Proof.
  intros N. destruct (replace_spec_fs self q w) as [->|[c [d [_ [L ->]]]]];
    [reflexivity|].
  now apply (kind_update_other q _ p d None).
Qed.

Lemma process_spec_cons (self : RenameProject) (q : path) (files : list path)
      (w : world) :
  process_spec self (q :: files) w =
  process_spec self files (replace_in_file_spec self q w).
Proof. reflexivity. Qed.

Lemma process_spec_kind_other (self : RenameProject) (files : list path)
      (p : path) :
  ~ In p files ->
  forall w, kind_of (fs (process_spec self files w)) p = kind_of (fs w) p.
Proof.
  induction files as [|q files IH]; intros N w; [reflexivity|].
  rewrite process_spec_cons, IH by (intros H; apply N; now right).
  apply replace_spec_kind_other. intros ->. apply N. now left.
Qed.

(** *** The walk lists no file twice *)

Lemma collect_dirs_in (here : path) (es : list (name * node)) (q : path) :
  In q (collect_dirs here es) ->
  exists d c p, In (d, c) es /\ q = here ++ d :: p /\ p <> [] /\
                In q (collect c (here ++ [d])).
Proof.
  unfold collect_dirs. intros H. apply in_flat_map in H as [[d c] [He H]].
  cbn [fst snd] in H. destruct c as [|es']; [contradiction|].
  destruct (keep_dir d); [|contradiction].
  destruct (collect_shape _ _ _ H) as [_ [p [-> Hp]]].
  exists d, (Dir es'), p. rewrite <- app_assoc in *.
  repeat split; try assumption. now intros ->.
Qed.

Lemma file_names_nodup (es : list (name * node)) :
  distinct (map fst es) = true -> NoDup (file_names es).
Proof.
  induction es as [|[x [d w|es']] es IH]; simpl; intros H.
  - constructor.
  - apply andb_true_iff in H as [Hm Hd]. constructor; [|now apply IH].
    intros I. apply file_names_in in I as [d' [w' I]].
    apply negb_true_iff in Hm.
    assert (M : mem x (map fst es) = true).
    { apply mem_in, in_map_iff. now exists (x, File d' w'). }
    congruence.
  - apply andb_true_iff in H as [_ Hd]. now apply IH.
Qed.

Lemma collect_nodup (n : node) :
  wf n = true -> forall here, NoDup (collect n here).
Proof.
  induction n as [data wr|es IH] using node_induction; intros W here.
  - constructor.
  - apply wf_dir in W as [Wd Wa]. rewrite collect_dir. apply NoDup_app.
    + apply NoDup_filter. apply NoDup_map_NoDup_ForallPairs.
      * intros x y _ _ E. apply app_inv_head in E. now injection E.
      * now apply file_names_nodup.
    + clear -IH Wd Wa. induction es as [|[d c] es IHes]; [constructor|].
      change (collect_dirs here ((d, c) :: es))
        with (match c with
              | Dir _ => if keep_dir d then collect c (here ++ [d]) else []
              | File _ _ => []
              end ++ collect_dirs here es).
      simpl in Wd. apply andb_true_iff in Wd as [Hm Hd].
      inversion IH as [|? ? IHc IHr]; subst.
      inversion Wa as [|? ? Wc Wr]; subst. cbn [snd] in IHc, Wc.
      apply NoDup_app.
      * destruct c; [constructor|].
        destruct (keep_dir d); [now apply IHc | constructor].
      * now apply IHes.
      * intros q Hq Hr.
        assert (Hq' : exists p, q = here ++ d :: p).
        { destruct c as [|es']; [contradiction|].
          destruct (keep_dir d); [|contradiction].
          destruct (collect_shape _ _ _ Hq) as [_ [p [-> _]]].
          exists p. now rewrite <- app_assoc. }
        destruct Hq' as [p ->].
        apply collect_dirs_in in Hr as [d' [c' [p' [He [E _]]]]].
        apply app_inv_head in E. injection E as -> _.
        apply negb_true_iff in Hm.
        assert (M : mem d' (map fst es) = true).
        { apply mem_in, in_map_iff. now exists (d', c'). }
        congruence.
    + intros q Hf Hd. apply filter_In in Hf as [Hf _].
      apply in_map_iff in Hf as [x [<- _]].
      apply collect_dirs_in in Hd as [d [c [p [_ [E [Hp _]]]]]].
      apply app_inv_head in E. injection E as _ E. congruence.
Qed.

(** *** A preview and a run that applies, side by side *)


Lemma kind_of_file (n : node) (p : path) (d : res str) (wr : option str) :
  kind_of n p = KFile d wr <-> lookup n p = Some (File d wr).
Proof.
  unfold kind_of. destruct (lookup n p) as [[d' w'|es]|]; split;
    intros H; try discriminate; now injection H as -> ->.
Qed.

Lemma write_text_kind (n : node) (p : path) (d : res str) (c : str) :
  kind_of n p = KFile d None ->
  write_text n p c = Ok (update n p (File (Ok c) None)).
Proof.
  intros H. apply kind_of_file in H. unfold write_text. now rewrite H.
Qed.

Lemma path_eq_dec (p q : path) : {p = q} + {p <> q}.
Proof. repeat decide equality. Qed.

Section Sync.
Variable root : str.
Let A : RenameProject := New root false.
Let P : RenameProject := New root true.


Lemma git_config_not_collected (n : node) : ~ In git_config (collect n []).
Proof.
  intros H. apply collect_shape in H as [_ [p [E Hp]]].
  simpl in E. subst p. vm_compute in Hp. discriminate.
Qed.


End Sync.

(** *** The tree after a run that applies *)

Lemma file_names_change (y : name) (f : node -> node) (c0 : node)
      (es : list (name * node)) :
  assoc y es = Some c0 ->
  (forall d w, c0 = File d w -> exists d' w', f c0 = File d' w') ->
  (forall es0, c0 = Dir es0 -> exists es1, f c0 = Dir es1) ->
  file_names (change y f es) = file_names es.
Proof.
  intros H Hf Hd. induction es as [|[z c] es IH]; [reflexivity|].
  simpl in *. destruct (str_eqb y z) eqn:E.
  - injection H as ->. destruct c0 as [d w|es0].
    + destruct (Hf d w eq_refl) as [d' [w' ->]]. reflexivity.
    + destruct (Hd es0 eq_refl) as [es1 ->]. reflexivity.
  - cbn [file_names]. rewrite (IH H). reflexivity.
Qed.

Lemma collect_dirs_change (here : path) (y : name) (f : node -> node)
      (c0 : node) (es : list (name * node)) :
  assoc y es = Some c0 ->
  (forall d w, c0 = File d w -> exists d' w', f c0 = File d' w') ->
  (forall es0, c0 = Dir es0 -> exists es1, f c0 = Dir es1) ->
  (forall h, collect (f c0) h = collect c0 h) ->
  collect_dirs here (change y f es) = collect_dirs here es.
Proof.
  intros H Hf Hd Hc. unfold collect_dirs.
  induction es as [|[z c] es IH]; [reflexivity|].
  simpl in H. cbn [change]. destruct (str_eqb y z) eqn:E.
  - injection H as ->. cbn [flat_map fst snd]. f_equal.
    destruct c0 as [d w|es0].
    + destruct (Hf d w eq_refl) as [d' [w' ->]]. reflexivity.
    + destruct (Hd es0 eq_refl) as [es1 E1]. rewrite <- Hc.
      rewrite E1. reflexivity.
  - cbn [flat_map fst snd]. now rewrite (IH H).
Qed.

(** Writing a file changes nothing in what the walk collects. *)
Lemma collect_update (q : path) :
  forall n here d w d' w',
    lookup n q = Some (File d w) ->
    collect (update n q (File d' w')) here = collect n here.
Proof.
  induction q as [|y q IH]; intros n here d w d' w' H.
  - simpl in H. injection H as ->. reflexivity.
  - simpl in H. destruct n as [|es]; [discriminate|].
    destruct (assoc y es) as [c|] eqn:E; [|discriminate].
    cbn [update]. rewrite !collect_dir.
    assert (Hf : forall d0 w0, c = File d0 w0 ->
                 exists d1 w1, update c q (File d' w') = File d1 w1).
    { intros d0 w0 ->. destruct q; simpl; eauto. }
    assert (Hd : forall es0, c = Dir es0 ->
                 exists es1, update c q (File d' w') = Dir es1).
    { intros es0 ->. destruct q; simpl in *; [discriminate|eauto]. }
    rewrite (file_names_change y _ c es E Hf Hd).
    rewrite (collect_dirs_change here y _ c es E Hf Hd); [reflexivity|].
    intros h. now apply (IH c h d w).
Qed.

Lemma replace_spec_collect (self : RenameProject) (q : path) (w : world) :
  collect (fs (replace_in_file_spec self q w)) [] = collect (fs w) [].
Proof.
  destruct (replace_spec_fs self q w) as [->|[c [d [_ [L ->]]]]];
    [reflexivity|].
  now apply (collect_update q _ _ d None).
Qed.

Lemma process_spec_collect (self : RenameProject) (files : list path) :
  forall w, collect (fs (process_spec self files w)) [] = collect (fs w) [].
Proof.
  induction files as [|q files IH]; intros w; [reflexivity|].
  rewrite process_spec_cons, IH. apply replace_spec_collect.
Qed.

(** What the patch of the git configuration can do to the tree: nothing,
    or write the content with the identifier replaced. *)
Lemma git_patch_fs (self : RenameProject) (w : world) :
  (fs (git_patch_spec self w) = fs w /\
   forall c, lookup (fs w) git_config = Some (File (Ok c) None) ->
             dry_run self = false ->
             contains (txt "claude-code.nvim") c = false) \/
  exists c d,
    lookup (fs w) git_config = Some (File d None) /\
    fs (git_patch_spec self w) =
    update (fs w) git_config
           (File (Ok (str_replace (txt "claude-code.nvim")
                                  (txt "claude-code-ide.nvim") c)) None).
Proof.
  unfold git_patch_spec. rewrite path_exists_kind, read_text_kind.
  destruct (kind_of (fs w) git_config) as [| |[c|e] wr] eqn:K.
  - left. split; [reflexivity|]. intros c L. apply kind_of_file in L. congruence.
  - left. split; [reflexivity|]. intros c L. apply kind_of_file in L. congruence.
  - destruct (contains (txt "claude-code.nvim") c) eqn:C.
    + destruct (dry_run self) eqn:D.
      * left. split; [reflexivity|]. intros; discriminate.
      * destruct wr as [e|].
        -- left. unfold write_text. apply kind_of_file in K. rewrite K.
           split; [reflexivity|]. intros c' L. congruence.
        -- right. rewrite (write_text_kind _ _ (Ok c)) by exact K.
           exists c, (Ok c). split; [now apply kind_of_file | reflexivity].
    + left. split; [reflexivity|]. intros c' L _.
      apply kind_of_file in K. congruence.
  - left. split; [reflexivity|]. intros c L. apply kind_of_file in L. congruence.
Qed.

(** After the rewriting that applies, a file of the list that can be read
    and written holds the output of the rules. *)
Lemma process_image (root : str) (files : list path) (p : path) (c : str) :
  forall w,
    In p files ->
    kind_of (fs (process_spec (New root false) files w)) p = KFile (Ok c) None ->
    exists c0, c = pipeline replacements c0.
Proof.
  induction files as [|q files IH]; intros w Hp K; [contradiction|].
  rewrite process_spec_cons in K.
  destruct (in_dec path_eq_dec p files) as [I|N]; [now apply (IH _ I K)|].
  destruct Hp as [->|Hp]; [|contradiction].
  rewrite process_spec_kind_other in K by exact N.
  unfold replace_in_file_spec in K. rewrite read_text_kind in K.
  destruct (kind_of (fs w) p) as [| |[c1|e] wr] eqn:K1;
    cbn [logged fs] in K; try congruence.
  cbn [dry_run] in K. rewrite orb_false_r in K.
  destruct (str_eqb (pipeline replacements c1) c1) eqn:E.
  - apply str_eqb_eq in E. cbn [logged fs] in K. exists c1. congruence.
  - destruct wr as [e|].
    + unfold write_text in K. apply kind_of_file in K1. rewrite K1 in K.
      cbn [logged fs] in K. apply kind_of_file in K. congruence.
    + rewrite (write_text_kind _ _ (Ok c1)) in K by exact K1. cbn [fs] in K.
      apply kind_of_file in K1.
      rewrite (kind_update_same p _ _ _ _ _ K1) in K.
      exists c1. congruence.
Qed.

Lemma str_replace_kills (content : str) :
  contains (txt "claude-code.nvim")
           (str_replace (txt "claude-code.nvim") (txt "claude-code-ide.nvim")
                        content) = false.
Proof.
  unfold str_replace.
  assert (S0 : settles (rule_at 0)) by (apply settling_rules; lia).
  destruct S0 as [[_ [_ [_ [Ha Hc]]]] [P0 [T0 [H0 U0]]]].
  rewrite <- P0 in T0, H0, U0.
  apply (literal_kills _ _ Ha Hc T0 H0 U0 content true).
Qed.

(** In the output of the rules, a change can only come from the help-tag
    rule, the rule of "/claude-code/" or the general rule. *)
Lemma rewritten_lines (c0 line : str) :
  In line (change_lines replacements (pipeline replacements c0)) ->
  exists j n, (j = 9 \/ j = 10 \/ j = 13) /\
              line = change_line (fst (rule_at j)) (snd (rule_at j)) n.
Proof.
  intros H.
  destruct (proj1 (change_lines_in _ _ _) H) as [j [rule [Hn [Hs Hl]]]].
  apply nth_error_rule_at in Hn as [Hj ->].
  exists j, (matches (rule_at j)
                     (pipeline (firstn j replacements)
                               (pipeline replacements c0))).
  split; [|exact Hl].
  destruct (Nat.eq_dec j 9) as [|N9]; [tauto|].
  destruct (Nat.eq_dec j 10) as [|N10]; [tauto|].
  destruct (Nat.eq_dec j 13) as [|N13]; [tauto|].
  exfalso. apply Hs. apply matches_zero_step.
  apply (settled_absent j (firstn j replacements) c0 Hj);
    [apply settling_rules; assumption|].
  intros x Hx. apply in_firstn_in in Hx. exact Hx.
Qed.

(** ** Insertions only lengthen *)






(** * The claims about the rewriting rules *)

(** C1, as amended.  A second application of the rules to the output [t] of
    a first one: every rule but the help-tag rule (number 9 from 0), the
    rule of "/claude-code/" (10) and the general rule (13) counts no match
    in the content [c] that reaches it, which is what the loop gives for
    the rules before it; and when these three count no match in [t]
    either, the second application changes nothing and records no
    change. *)
Theorem second_pass (s t : str) (lines : list str) :
  apply_rules replacements s [] = Ok (t, lines) ->
  (forall j c lines',
     j < 14 -> j <> 9 -> j <> 10 -> j <> 13 ->
     apply_rules (firstn j replacements) t [] = Ok (c, lines') ->
     Re.findall_len (fst (rule_at j)) c = Ok 0) /\
  (Re.findall_len (fst (rule_at 9)) t = Ok 0 ->
   Re.findall_len (fst (rule_at 10)) t = Ok 0 ->
   Re.findall_len (fst (rule_at 13)) t = Ok 0 ->
   apply_rules replacements t [] = Ok (t, [])).
Proof.
  rewrite rewrite_ok. intros H.
  apply Ok_inj, pair_inj in H as [<- _]. split.
  - intros j c lines' Hj H9 H10 H13. rewrite stage_ok. intros E.
    apply Ok_inj, pair_inj in E as [<- _]. unfold stage.
    apply settled_absent; [exact Hj | now apply settling_rules|].
    intros x Hx. now apply in_firstn_in in Hx.
  - intros H9 H10 H13. rewrite rewrite_ok.
    destruct (idle_rules replacements (pipeline replacements s)) as [-> ->];
      [|reflexivity].
    apply forall_rules. intros j Hj. apply matches_zero_step.
    destruct (Nat.eq_dec j 9) as [->|N9]; [exact H9|].
    destruct (Nat.eq_dec j 10) as [->|N10]; [exact H10|].
    destruct (Nat.eq_dec j 13) as [->|N13]; [exact H13|].
    apply (settled_absent j [] s Hj); [now apply settling_rules|].
    intros x [].
Qed.

Lemma second_pass_witness :
  Re.findall_len (fst (rule_at 0)) (txt "see claude-code-ide.nvim") = Ok 0 /\
  apply_rules replacements (txt "see claude-code-ide.nvim") [] =
  Ok (txt "see claude-code-ide.nvim", []).
Proof.
  assert (H : apply_rules replacements (txt "see claude-code.nvim") [] =
              Ok (txt "see claude-code-ide.nvim",
                  [change_line (fst (rule_at 0)) (snd (rule_at 0)) 1]))
    by (vm_compute; reflexivity).
  destruct (second_pass _ _ _ H) as [H1 H2].
  split.
  - apply (H1 0 _ []); try lia. reflexivity.
  - apply H2; vm_compute; reflexivity.
Defined.

(** C1, as stated, fails: a second application substitutes again in the
    output of the first, for a help tag (whose rule matches its own
    replacement), for two names with one space between them, and for two
    names with one slash between them. *)
Lemma rewrite_not_idempotent :
  (apply_rules replacements (txt "*claude-code-tag*") [] =
     Ok (txt "*claude-code-ide-tag*",
         [change_line (fst (rule_at 9)) (snd (rule_at 9)) 1]) /\
   apply_rules replacements (txt "*claude-code-ide-tag*") [] =
     Ok (txt "*claude-code-ide-ide-tag*",
         [change_line (fst (rule_at 9)) (snd (rule_at 9)) 1])) /\
  (apply_rules replacements (txt "claude-code claude-code") [] =
     Ok (txt "claude-code-ide claude-code",
         [change_line (fst (rule_at 13)) (snd (rule_at 13)) 1]) /\
   apply_rules replacements (txt "claude-code-ide claude-code") [] =
     Ok (txt "claude-code-ide claude-code-ide",
         [change_line (fst (rule_at 13)) (snd (rule_at 13)) 1])) /\
  (apply_rules replacements (txt "/claude-code/claude-code/") [] =
     Ok (txt "/claude-code-ide/claude-code/",
         [change_line (fst (rule_at 10)) (snd (rule_at 10)) 1]) /\
   apply_rules replacements (txt "/claude-code-ide/claude-code/") [] =
     Ok (txt "/claude-code-ide/claude-code-ide/",
         [change_line (fst (rule_at 10)) (snd (rule_at 10)) 1])) /\
  contains (sought (rule_at 9)) (snd (rule_at 9)) = true /\
  ~ idempotent replacements.
Proof.
  assert (E1 : apply_rules replacements (txt "*claude-code-tag*") [] =
               Ok (txt "*claude-code-ide-tag*",
                   [change_line (fst (rule_at 9)) (snd (rule_at 9)) 1]))
    by (vm_compute; reflexivity).
  assert (E2 : apply_rules replacements (txt "*claude-code-ide-tag*") [] =
               Ok (txt "*claude-code-ide-ide-tag*",
                   [change_line (fst (rule_at 9)) (snd (rule_at 9)) 1]))
    by (vm_compute; reflexivity).
  split; [split; [exact E1 | exact E2]|].
  split; [split; vm_compute; reflexivity|].
  split; [split; vm_compute; reflexivity|].
  split; [vm_compute; reflexivity|].
  intros H. specialize (H _ _ _ E1). rewrite E2 in H.
  apply Ok_inj, pair_inj in H as [_ H]. discriminate H.
Qed.

(** C10.  After the first rule no "claude-code.nvim" is left, so the
    fourth rule counts no match in the output of the first, and none in
    the content that reaches it in the loop (what the loop gives for the
    three rules before it), which it leaves as it is. *)
Theorem fourth_rule_idle (s : str) :
  Re.sub (fst (rule_at 0)) (snd (rule_at 0)) s = Ok (step (rule_at 0) s) /\
  contains (txt "claude-code.nvim") (step (rule_at 0) s) = false /\
  Re.findall_len (fst (rule_at 3)) (step (rule_at 0) s) = Ok 0 /\
  apply_rules (firstn 3 replacements) s [] =
    Ok (stage 3 s, change_lines (firstn 3 replacements) s) /\
  Re.findall_len (fst (rule_at 3)) (stage 3 s) = Ok 0 /\
  Re.sub (fst (rule_at 3)) (snd (rule_at 3)) (stage 3 s) = Ok (stage 3 s).
Proof.
  assert (S0 : settles (rule_at 0)) by (apply settling_rules; lia).
  assert (S3 : settles (rule_at 3)) by (apply settling_rules; lia).
  destruct S0 as [L0 [P0 [T0 [H0 U0]]]]. destruct S3 as [L3 [P3 _]].
  assert (K : contains (txt "claude-code.nvim") (step (rule_at 0) s) = false).
  { rewrite (step_literal _ _ _ _ L0).
    change (txt "claude-code.nvim")
      with (before_ide (rule_at 0) ++ after_ide (rule_at 0)).
    destruct L0 as [_ [_ [_ [Ha Hc]]]].
    apply literal_kills; try assumption; rewrite P0; assumption. }
  assert (K3 : contains (txt "claude-code.nvim") (stage 3 s) = false).
  { destruct (contains _ (stage 3 s)) eqn:E; [|reflexivity].
    change (stage 3 s)
      with (pipeline [rule_at 1; rule_at 2] (step (rule_at 0) s)) in E.
    apply pipeline_no_new in E; [congruence|exact T0|exact H0|].
    intros x [<-|[<-|[]]]; unfold replacements; simpl; tauto. }
  assert (A : forall x, contains (txt "claude-code.nvim") x = false ->
                        Re.findall_len (fst (rule_at 3)) x = Ok 0).
  { intros x Hx. apply (literal_rule_absent _ _ _ _ L3).
    destruct (contains (before_ide (rule_at 3) ++ after_ide (rule_at 3)) x)
      eqn:E; [|reflexivity].
    rewrite <- Hx. symmetry.
    apply (contains_part _ (before_ide (rule_at 3) ++ after_ide (rule_at 3)));
      [vm_compute; reflexivity | exact E]. }
  split; [|split; [exact K|split; [now apply A|split;
    [apply stage_ok|split; [now apply A|]]]]].
  - unfold step. now rewrite (literal_rule_sub _ _ _ s L0).
  - apply no_match_no_change. now apply A.
Qed.



(** * The claims about runs *)

(** C3.  A run that previews returns and leaves the tree under the root as
    it found it: the same directories and files, with the same
    contents. *)
Theorem preview_keeps_files (root : str) (w : world) :
  fst (run (New root true) w) = Ok tt /\
  fs (snd (run (New root true) w)) = fs w.
Proof.
  rewrite run_eq. unfold rename_paths.
  rewrite rename_rules_preview by reflexivity. cbn [fst snd].
  split; [reflexivity|]. now rewrite after_renames_preview.
Qed.







(** C5, as amended.  A file passes [should_process_file] exactly when its
    name is a special file name or its suffix a text extension.  In a
    tree without duplicate names, the files that the rewriting opens are
    the files the walk reaches (no directory above them is hidden or
    skipped) that pass [should_process_file].  A path that does not pass
    is never opened, and what is read at it is the same after the
    rewriting, in either mode. *)
Theorem selection (self : RenameProject) (w : world) (p : path) :
  (should_process_file p = true <->
   mem (last p []) special_files = true \/
   mem (suffix (last p [])) text_extensions = true) /\
  (wf (fs w) = true ->
   (In p (collect (fs w) []) <->
    visited (fs w) p = true /\ should_process_file p = true)) /\
  (should_process_file p = false ->
   ~ In p (collect (fs w) []) /\
   read_text (fs (snd (process_all_files self w))) p = read_text (fs w) p).
Proof.
  split; [|split].
  - unfold should_process_file.
    destruct (mem (last p []) special_files); [tauto|]. split; [tauto|].
    now intros [H|H].
  - intros W. rewrite (collect_visited (fs w) W [] p). split.
    + now intros [p' [-> H]].
    + intros H. now exists p.
  - intros H.
    assert (N : ~ In p (collect (fs w) [])).
    { intros I. apply collect_shape in I as [I _]. congruence. }
    split; [exact N|].
    rewrite process_all_files_eq. cbn [snd].
    rewrite !read_text_kind, process_spec_kind_other by exact N.
    reflexivity.
Qed.

Lemma selection_witness :
  (In [txt "README.md"] (collect example_tree []) <->
   visited example_tree [txt "README.md"] = true /\
   should_process_file [txt "README.md"] = true) /\
  read_text (fs (snd (process_all_files (New (txt ".") false)
                                        (World example_tree []))))
            [txt "logo.png"] =
  read_text example_tree [txt "logo.png"].
Proof.
  split.
  - apply (selection (New (txt ".") false) (World example_tree [])
                     [txt "README.md"]).
    reflexivity.
  - apply (selection (New (txt ".") false) (World example_tree [])
                     [txt "logo.png"]).
    reflexivity.
Defined.

(** C5, as stated, fails: a file with a text extension below a skipped
    directory is not opened, and keeps the old identifier in a run that
    applies. *)
Lemma eligible_but_skipped :
  let p := [txt "node_modules"; txt "readme.md"] in
  read_text example_tree p = Ok (txt "claude-code.nvim") /\
  should_process_file p = true /\
  ~ In p (collect example_tree []) /\
  read_text (fs (snd (run (New (txt ".") false) (World example_tree [])))) p =
  Ok (txt "claude-code.nvim").
Proof.
  split; [vm_compute; reflexivity|].
  split; [vm_compute; reflexivity|].
  split; [|vm_compute; reflexivity].
  vm_compute. intros [H|[H|[]]]; discriminate.
Qed.




(** C4, as amended.  After a run that applies and returns, in the tree it
    leaves: for every file the rewriting of a further run would open that
    can be read and written, every rule but the help-tag rule, the rule of
    "/claude-code/" and the general rule counts no match in the content
    that reaches it (what the loop gives for the rules before it), so
    that only these three can put a
    line in [changes_made]; and a git configuration that can be read and
    written does not hold the old identifier. *)
Theorem after_apply (root : str) (w : world) :
  fst (run (New root false) w) = Ok tt ->
  let fs' := fs (snd (run (New root false) w)) in
  (forall p c,
     In p (collect fs' []) -> lookup fs' p = Some (File (Ok c) None) ->
     (forall j c' lines',
        j < 14 -> j <> 9 -> j <> 10 -> j <> 13 ->
        apply_rules (firstn j replacements) c [] = Ok (c', lines') ->
        Re.findall_len (fst (rule_at j)) c' = Ok 0) /\
     (exists lines,
        apply_rules replacements c [] = Ok (pipeline replacements c, lines) /\
        forall line, In line lines ->
          exists j n, (j = 9 \/ j = 10 \/ j = 13) /\
            line = change_line (fst (rule_at j)) (snd (rule_at j)) n)) /\
  (forall c, lookup fs' git_config = Some (File (Ok c) None) ->
             contains (txt "claude-code.nvim") c = false).
Proof.
  rewrite run_eq.
  destruct (rename_paths (New root false) _) as [[u|e] w1]; [|discriminate].
  intros _. cbn [snd]. unfold after_renames.
  set (files := collect (fs (logged w1 _)) []).
  set (w3 := process_spec (New root false) files _).
  set (wg := logged w3 _).
  assert (Himg : forall p c, In p files ->
                   kind_of (fs w3) p = KFile (Ok c) None ->
                   exists c0, c = pipeline replacements c0).
  { intros p c. apply process_image. }
  assert (Hcol : collect (fs w3) [] = files).
  { unfold w3. now rewrite process_spec_collect. }
  assert (Hout : forall c0,
            (forall j c' lines',
               j < 14 -> j <> 9 -> j <> 10 -> j <> 13 ->
               apply_rules (firstn j replacements)
                           (pipeline replacements c0) [] = Ok (c', lines') ->
               Re.findall_len (fst (rule_at j)) c' = Ok 0) /\
            (exists lines,
               apply_rules replacements (pipeline replacements c0) [] =
                 Ok (pipeline replacements (pipeline replacements c0), lines) /\
               forall line, In line lines ->
                 exists j n, (j = 9 \/ j = 10 \/ j = 13) /\
                   line = change_line (fst (rule_at j)) (snd (rule_at j)) n)).
  { intros c0. split;
      [|eexists; split; [apply rewrite_ok | apply rewritten_lines]].
    intros j c' lines' Hj H9 H10 H13. rewrite stage_ok. intros E.
    apply Ok_inj, pair_inj in E as [<- _]. unfold stage.
    apply settled_absent; [exact Hj | now apply settling_rules|].
    intros x Hx. now apply in_firstn_in in Hx. }
  destruct (git_patch_fs (New root false) wg) as [[E Hg]|[c1 [d [L E]]]];
    rewrite E; change (fs wg) with (fs w3) in *.
  - split.
    + intros p c Hp Hl. rewrite Hcol in Hp. apply kind_of_file in Hl.
      destruct (Himg p c Hp Hl) as [c0 ->]. apply Hout.
    + intros c Hl. now apply Hg.
  - split.
    + intros p c Hp Hl. rewrite (collect_update _ _ _ _ _ _ _ L), Hcol in Hp.
      assert (N : p <> git_config).
      { intros ->. now apply (git_config_not_collected (fs (logged w1 []))). }
      apply kind_of_file in Hl.
      rewrite (kind_update_other _ _ _ _ _ _ _ L N) in Hl.
      destruct (Himg p c Hp Hl) as [c0 ->]. apply Hout.
    + intros c Hl. apply kind_of_file in Hl.
      rewrite (kind_update_same _ _ _ _ _ _ L) in Hl.
      injection Hl as <-. apply str_replace_kills.
Qed.

Lemma after_apply_witness :
  Re.findall_len (fst (rule_at 0))
                 (txt "Install ianks/claude-code-ide.nvim") = Ok 0 /\
  contains (txt "claude-code.nvim")
           (txt "url = git@github.com:ianks/claude-code-ide.nvim.git") = false.
Proof.
  assert (R : fst (run (New (txt ".") false) (World example_tree [])) = Ok tt)
    by (vm_compute; reflexivity).
  destruct (after_apply (txt ".") (World example_tree []) R) as [H1 H2].
  assert (I : In [txt "README.md"]
                 (collect (fs (snd (run (New (txt ".") false)
                                        (World example_tree [])))) []))
    by (vm_compute; left; reflexivity).
  assert (L : lookup (fs (snd (run (New (txt ".") false)
                                   (World example_tree []))))
                     [txt "README.md"] =
              Some (File (Ok (txt "Install ianks/claude-code-ide.nvim")) None))
    by (vm_compute; reflexivity).
  destruct (H1 _ _ I L) as [H _].
  split.
  - apply (H 0 _ []); try lia. reflexivity.
  - apply H2. vm_compute. reflexivity.
Defined.

(** C4, as stated, fails: after a run that applies to a help file, a
    preview over the result finds the help tag again and logs a change for
    the file. *)
Lemma preview_after_apply_finds_changes :
  let w1 := snd (run (New (txt ".") false) (World example_doc [])) in
  fst (run (New (txt ".") false) (World example_doc [])) = Ok tt /\
  read_text (fs w1) [txt "doc"; txt "help.txt"] =
    Ok (txt "*claude-code-ide-usage*") /\
  Re.findall_len (fst (rule_at 9)) (txt "*claude-code-ide-usage*") = Ok 1 /\
  In (txt "Updating file: doc/help.txt")
     (changes (snd (run (New (txt ".") true) (World (fs w1) [])))).
Proof.
  split; [vm_compute; reflexivity|].
  split; [vm_compute; reflexivity|].
  split; [vm_compute; reflexivity|].
  vm_compute. do 6 right. now left.
Qed.

(** * Further properties of the rewriting *)

Lemma subseq_refl (s : str) : subseq s s.
Proof. induction s; constructor; assumption. Qed.

Lemma subseq_app_skip (x s t : str) : subseq s t -> subseq s (x ++ t).
Proof. intros H. induction x; simpl; [exact H | now constructor]. Qed.

Lemma subseq_trans (s t u : str) : subseq s t -> subseq t u -> subseq s u.
Proof.
  intros Hst Htu. revert s Hst.
  induction Htu as [|c t u H IH|c t u H IH]; intros s Hst.
  - exact Hst.
  - inversion Hst; subst.
    + constructor. now apply IH.
    + constructor. now apply IH.
  - constructor. now apply IH.
Qed.

Lemma ins_subseq (s t : str) : ins s t -> subseq s t.
Proof.
  induction 1 as [|c s t H IH|s t H IH].
  - constructor.
  - now constructor.
  - now apply subseq_app_skip.
Qed.

Section ScanCount.
Variable m : bool -> str -> option (nat * str).

Lemma count_scan_skip (k : nat) (s : str) (b : bool) :
  0 < k -> k <= length s ->
  Re.count_scan m b k s = Re.count_scan m false 0 (skipn k s).
Proof.
  revert k b. induction s as [|c s IH]; intros k b H0 Hk; simpl in Hk.
  - lia.
  - destruct k as [|k]; [lia|]. simpl.
    destruct k as [|k]; [reflexivity|].
    apply IH; lia.
Qed.

Lemma count_scan_match (b : bool) (s : str) (n : nat) (e : str) :
  m b s = Some (n, e) -> 0 < n -> n <= length s ->
  Re.count_scan m b 0 s = S (Re.count_scan m false 0 (skipn n s)).
Proof.
  intros Hm H0 Hn. destruct s as [|c s]; simpl in Hn; [lia|].
  simpl. rewrite Hm. destruct n as [|n]; [lia|].
  destruct n as [|n]; [reflexivity|].
  rewrite count_scan_skip by lia. reflexivity.
Qed.

(** A scan that inserts [ide] lengthens the text by four characters for
    each match it counts. *)
Lemma sub_scan_length :
  inserting m ->
  forall s b,
    length (Re.sub_scan m b 0 s) = length s + 4 * Re.count_scan m b 0 s.
Proof.
  intros Hm s.
  assert (H : forall l s, length s <= l -> forall b,
             length (Re.sub_scan m b 0 s) =
             length s + 4 * Re.count_scan m b 0 s);
    [|intros b; apply (H (length s)); lia].
  clear s. induction l as [|l IH]; intros s Hl b.
  - destruct s as [|c s]; [|simpl in Hl; lia].
    simpl. destruct (m b []) as [[n e]|] eqn:E; [|reflexivity].
    apply Hm in E as [H0 [Hn _]]. simpl in Hn. lia.
  - destruct s as [|c s].
    + simpl. destruct (m b []) as [[n e]|] eqn:E; [|reflexivity].
      apply Hm in E as [H0 [Hn _]]. simpl in Hn. lia.
    + destruct (m b (c :: s)) as [[n e]|] eqn:E.
      * destruct (Hm _ _ _ _ E) as [H0 [Hn [a [d [Hf He]]]]].
        rewrite (sub_scan_match _ _ _ _ _ E H0 Hn).
        rewrite (count_scan_match _ _ _ _ E H0 Hn).
        assert (Le : length e = n + 4).
        { rewrite He, !length_app. change (length ide) with 4.
          assert (Ln : length (firstn n (c :: s)) = n)
            by (apply firstn_length_le; exact Hn).
          rewrite Hf, length_app in Ln. lia. }
        rewrite length_app, Le.
        assert (Lk : length (skipn n (c :: s)) = length (c :: s) - n)
          by apply length_skipn.
        rewrite IH by (rewrite Lk; cbn [length] in *; lia).
        rewrite Lk. lia.
      * rewrite (sub_scan_miss _ _ _ _ E).
        assert (Hc : Re.count_scan m b 0 (c :: s) = Re.count_scan m false 0 s)
          by (simpl; rewrite E; reflexivity).
        rewrite Hc. cbn [length]. rewrite IH by (simpl in Hl; lia). lia.
Qed.

(** A scan whose matcher finds nothing in a text or any end of it counts
    no match. *)
Lemma count_scan_none (P : str -> Prop) :
  (forall c s, P (c :: s) -> P s) ->
  (forall b s, P s -> m b s = None) ->
  forall s b, P s -> Re.count_scan m b 0 s = 0.
Proof.
  intros Ht Hn. induction s as [|c s IH]; intros b Hs; simpl.
  - now rewrite Hn.
  - rewrite Hn by exact Hs. apply IH. now apply Ht with c.
Qed.
End ScanCount.

Lemma rule_cases (rule : str * str) :
  In rule replacements ->
  In rule (firstn 13 replacements) \/ rule = general_rule.
Proof.
  intros H.
  assert (H' : In rule (firstn 13 replacements ++ skipn 13 replacements))
    by (rewrite firstn_skipn; exact H).
  apply in_app_or in H'. destruct H' as [H'|H']; [left; exact H'|right].
  unfold replacements in H'. cbn [skipn] in H'.
  destruct H' as [H'|[]]. symmetry. exact H'.
Qed.

Lemma matches_literal (rule : str * str) (a c s : str) :
  literal_rule rule a c ->
  matches rule s = Re.count_scan (literal (a ++ c) (a ++ ide ++ c)) true 0 s.
Proof. intros H. unfold matches. now rewrite (literal_rule_count _ _ _ s H). Qed.

Lemma matches_general (s : str) :
  matches general_rule s =
  Re.count_scan (Re.matcher general_re (Re.template (snd general_rule)))
                true 0 s.
Proof.
  unfold matches, Re.findall_len. rewrite general_compile.
  apply count_scan_ext. intros b t. unfold Re.matcher.
  now destruct (Re.match_here general_re b t).
Qed.

(** A rule lengthens the content by four characters for each match. *)
Lemma step_length (rule : str * str) (s : str) :
  In rule replacements ->
  length (step rule s) = length s + 4 * matches rule s.
Proof.
  intros H. destruct (rule_cases _ H) as [Hr| ->].
  - pose proof literal_rules as L. rewrite Forall_forall in L.
    specialize (L rule Hr).
    rewrite (step_literal _ _ _ s L), (matches_literal _ _ _ s L).
    destruct L as [_ [_ [_ [Ha Hc]]]].
    apply sub_scan_length, literal_inserting; assumption.
  - rewrite step_general, matches_general.
    apply sub_scan_length, general_inserting.
Qed.

Lemma step_same_iff (rule : str * str) (s : str) :
  In rule replacements -> step rule s = s <-> matches rule s = 0.
Proof.
  intros H. split; intros E.
  - pose proof (step_length rule s H) as L. rewrite E in L. lia.
  - destruct (rule_cases _ H) as [Hr| ->].
    + pose proof literal_rules as L. rewrite Forall_forall in L.
      specialize (L rule Hr).
      rewrite (matches_literal _ _ _ s L) in E.
      rewrite (step_literal _ _ _ s L). now apply count_zero_sub.
    + rewrite matches_general in E. rewrite step_general.
      now apply count_zero_sub.
Qed.

Lemma pipeline_total (rules : list (str * str)) :
  incl rules replacements ->
  forall s,
    length (pipeline rules s) = length s + 4 * total_matches rules s.
Proof.
  induction rules as [|rule rules IH]; intros Hi s.
  - simpl. lia.
  - rewrite pipeline_cons. cbn [total_matches].
    rewrite IH by (intros x Hx; apply Hi; now right).
    rewrite step_length by (apply Hi; now left). lia.
Qed.

Lemma pipeline_subseq (rules : list (str * str)) :
  incl rules replacements ->
  forall s, subseq s (pipeline rules s).
Proof.
  induction rules as [|rule rules IH]; intros Hi s.
  - apply subseq_refl.
  - rewrite pipeline_cons. apply subseq_trans with (step rule s).
    + apply ins_subseq, step_ins, Hi. now left.
    + apply IH. intros x Hx. apply Hi. now right.
Qed.

(** X1. The loop over the rules of [replace_in_file] returns for every
    content; it deletes and reorders nothing: the content is what stays of
    the result when some characters are left out, and the result is
    longer by four characters for each match a rule counted in the
    content that reached it. *)
Theorem rewrite_only_adds (content : str) :
  exists t lines,
    apply_rules replacements content [] = Ok (t, lines) /\
    subseq content t /\
    length t = length content + 4 * total_matches replacements content.
Proof.
  exists (pipeline replacements content), (change_lines replacements content).
  split; [apply rewrite_ok|]. split.
  - apply pipeline_subseq, incl_refl.
  - apply pipeline_total, incl_refl.
Qed.

(** X2. One turn of the loop of [replace_in_file], for any rule of the
    script and any content: the substitution and the count of matches
    both return; with no match the content and [changes_made] stay as
    they are; with [n > 0] matches the content becomes the substituted
    one, longer by [4 * n] characters, and the line of the rule with the
    count [n] joins [changes_made]. A logged count is never zero. *)
Theorem rule_turn (j : nat) (content : str) (changes_made : list str) :
  j < 14 ->
  let rule := rule_at j in
  let n := matches rule content in
  Re.sub (fst rule) (snd rule) content = Ok (step rule content) /\
  Re.findall_len (fst rule) content = Ok n /\
  length (step rule content) = length content + 4 * n /\
  apply_rules [rule] content changes_made =
  Ok (if n =? 0 then (content, changes_made)
      else (step rule content,
            changes_made ++ [change_line (fst rule) (snd rule) n])).
Proof.
  intros Hj rule n.
  assert (Hin : In rule replacements) by (apply nth_In; exact Hj).
  pose proof (sub_ok j content Hj) as Hs.
  pose proof (findall_ok j content Hj) as Hf.
  pose proof (step_length rule content Hin) as Hl.
  pose proof (step_same_iff rule content Hin) as Hz.
  fold rule in Hs, Hf. fold n in Hf, Hl, Hz.
  split; [exact Hs|]. split; [exact Hf|]. split; [exact Hl|].
  cbn [apply_rules]. destruct rule as [pattern replacement] eqn:Er.
  cbn [fst snd] in *. rewrite Hs.
  destruct (Nat.eqb_spec n 0) as [E|E].
  - apply Hz in E. rewrite E, str_eqb_refl. reflexivity.
  - assert (Hne : step (pattern, replacement) content <> content)
      by (intros C; apply E, Hz, C).
    apply str_eqb_neq in Hne. rewrite Hne. cbn [negb]. rewrite Hf.
    reflexivity.
Qed.

Lemma rule_turn_witness :
  1 < 14 /\
  Re.findall_len (fst (rule_at 1)) (txt "see claude-code.txt") = Ok 1.
Proof.
  split; [lia|].
  assert (E : matches (rule_at 1) (txt "see claude-code.txt") = 1)
    by (vm_compute; reflexivity).
  rewrite <- E.
  exact (proj1 (proj2 (rule_turn 1 (txt "see claude-code.txt") [] ltac:(lia)))).
Defined.

Lemma literal_rules_name :
  Forall (fun rule =>
            contains old_name (before_ide rule ++ after_ide rule) = true)
         (firstn 13 replacements).
Proof. repeat constructor. Qed.

Lemma no_name_tail (c : char) (s : str) :
  contains old_name (c :: s) = false -> contains old_name s = false.
Proof.
  rewrite contains_cons. intros H. now apply orb_false_iff in H as [_ H].
Qed.

Lemma general_needs_name (t : list Re.titem) (b : bool) (s : str) :
  contains old_name s = false -> Re.matcher general_re t b s = None.
Proof.
  intros H. unfold Re.matcher.
  destruct (Re.match_here general_re b s) as [st|] eqn:E; [|reflexivity].
  apply general_match in E as [d1 [d2 [rest [-> _]]]].
  assert (C : contains old_name
                (d1 ++ txt "claude-code" ++ d2 ++ rest) = true)
    by (apply contains_iff; now exists d1, (d2 ++ rest)).
  congruence.
Qed.

(** No rule matches in a content without "claude-code". *)
Lemma no_name_no_match (rule : str * str) (s : str) :
  In rule replacements -> contains old_name s = false -> matches rule s = 0.
Proof.
  intros H Hs. destruct (rule_cases _ H) as [Hr| ->].
  - pose proof literal_rules as L. rewrite Forall_forall in L.
    pose proof literal_rules_name as N. rewrite Forall_forall in N.
    specialize (L rule Hr). specialize (N rule Hr).
    rewrite (matches_literal _ _ _ s L). apply literal_count_zero.
    destruct (contains (before_ide rule ++ after_ide rule) s) eqn:C;
      [|reflexivity].
    rewrite (contains_part _ _ _ N C) in Hs. discriminate.
  - rewrite matches_general.
    apply count_scan_none with (P := fun s => contains old_name s = false).
    + apply no_name_tail.
    + intros b t. apply general_needs_name.
    + exact Hs.
Qed.

Lemma no_name_pipeline (content : str) :
  contains old_name content = false ->
  pipeline replacements content = content /\
  change_lines replacements content = [].
Proof.
  intros H. apply idle_rules. apply Forall_forall. intros rule Hr.
  apply step_same_iff; [exact Hr|]. now apply no_name_no_match.
Qed.

Lemma logged_nil (w : world) : logged w [] = w.
Proof. destruct w. unfold logged. simpl. now rewrite app_nil_r. Qed.

(** X3. A file whose content has no "claude-code" in it is left alone,
    in a preview and in an applying run: the loop over the rules returns
    the content unchanged with no line, and [replace_in_file] returns
    with the tree and the log as they were (nothing logged, nothing
    written). *)
Theorem no_name_untouched (self : RenameProject) (p : path) (w : world)
        (content : str) :
  read_text (fs w) p = Ok content ->
  contains old_name content = false ->
  apply_rules replacements content [] = Ok (content, []) /\
  replace_in_file self p w = (Ok tt, w).
Proof.
  intros Hr Hc. destruct (no_name_pipeline content Hc) as [Hp Hl].
  split.
  - rewrite rewrite_ok, Hp, Hl. reflexivity.
  - rewrite replace_in_file_eq. unfold replace_in_file_spec, update_entries.
    rewrite Hr, Hp, str_eqb_refl. cbn [orb]. now rewrite logged_nil.
Qed.

Lemma no_name_untouched_witness :
  replace_in_file (New (txt ".") false) [txt "README.md"]
    (World (Dir [(txt "README.md", file "a plugin for claude")]) []) =
  (Ok tt, World (Dir [(txt "README.md", file "a plugin for claude")]) []).
Proof.
  exact (proj2 (no_name_untouched (New (txt ".") false) [txt "README.md"]
                  (World (Dir [(txt "README.md", file "a plugin for claude")]) [])
                  (txt "a plugin for claude") eq_refl eq_refl)).
Defined.

(** X4. After the loop over the rules, for every content, the texts of
    the rules other than the help tag, the path between slashes and the
    general one are gone: the result contains none of
    [claude-code.nvim], [claude-code.txt], [claude-code.log],
    [ianks/claude-code.nvim], the four [require] forms, [claude-code:],
    and [claude-code/] behind a double or a single quote. *)
Theorem settled_texts_gone (j : nat) (content t : str) (lines : list str) :
  j < 14 -> j <> 9 -> j <> 10 -> j <> 13 ->
  apply_rules replacements content [] = Ok (t, lines) ->
  contains (sought (rule_at j)) t = false.
Proof.
  intros Hj H9 H10 H13 H. rewrite rewrite_ok in H.
  apply Ok_inj, pair_inj in H as [<- _].
  apply (settled_gone j [] content).
  - exact Hj.
  - apply settling_rules; assumption.
  - intros x [].
Qed.

Lemma settled_texts_gone_witness :
  contains (sought (rule_at 0))
           (pipeline replacements (txt "use claude-code.nvim now")) = false.
Proof.
  apply (settled_texts_gone 0 (txt "use claude-code.nvim now")
           (pipeline replacements (txt "use claude-code.nvim now"))
           (change_lines replacements (txt "use claude-code.nvim now")));
    [lia | lia | lia | lia | vm_compute; reflexivity].
Defined.

(** * Further properties of the methods *)

(** ** The log only grows *)

Lemma appends_ret (A : Type) (a : A) : appends (ret a).
Proof. intros w. exists []. simpl. now rewrite app_nil_r. Qed.

Lemma appends_lift (A : Type) (r : res A) : appends (lift r).
Proof. intros w. exists []. simpl. now rewrite app_nil_r. Qed.

Lemma appends_get_fs : appends get_fs.
Proof. intros w. exists []. simpl. now rewrite app_nil_r. Qed.

Lemma appends_set_fs (n : node) : appends (set_fs n).
Proof. intros w. exists []. simpl. now rewrite app_nil_r. Qed.

Lemma appends_log (message : str) : appends (log message).
Proof. intros w. now exists [message]. Qed.

Lemma appends_bind (A B : Type) (m : M A) (f : A -> M B) :
  appends m -> (forall a, appends (f a)) -> appends (bind m f).
Proof.
  intros Hm Hf w. unfold bind. destruct (Hm w) as [l1 H1].
  destruct (m w) as [[a|e] w1]; cbn [snd] in *.
  - destruct (Hf a w1) as [l2 H2]. exists (l1 ++ l2).
    now rewrite H2, H1, app_assoc.
  - now exists l1.
Qed.

Lemma appends_try (body : M unit) (handler : str -> M unit) :
  appends body -> (forall e, appends (handler e)) ->
  appends (try_except body handler).
Proof.
  intros Hm Hf w. unfold try_except. destruct (Hm w) as [l1 H1].
  destruct (body w) as [[a|e] w1]; cbn [snd] in *.
  - now exists l1.
  - destruct (Hf e w1) as [l2 H2]. exists (l1 ++ l2).
    now rewrite H2, H1, app_assoc.
Qed.

Lemma appends_for_each (X : Type) (xs : list X) (body : X -> M unit) :
  (forall x, appends (body x)) -> appends (for_each xs body).
Proof.
  intros H. induction xs as [|x xs IH]; cbn [for_each].
  - apply appends_ret.
  - apply appends_bind; [apply H | intros _; exact IH].
Qed.

Lemma appends_fs_op (op : node -> res node) : appends (fs_op op).
Proof.
  unfold fs_op. apply appends_bind; [apply appends_get_fs|]. intros n.
  apply appends_bind; [apply appends_lift|]. intros n'. apply appends_set_fs.
Qed.

Ltac appends_step :=
  first [ apply appends_ret | apply appends_log | apply appends_lift
        | apply appends_get_fs | apply appends_fs_op
        | apply appends_for_each; intros
        | apply appends_try; [|intros]
        | apply appends_bind; [|intros]
        | match goal with
          | |- appends (if ?b then _ else _) => destruct b
          | |- appends (let (_, _) := ?r in _) => destruct r
          end ].

Lemma appends_replace_in_file (self : RenameProject) (p : path) :
  appends (replace_in_file self p).
Proof. unfold replace_in_file. repeat appends_step. Qed.

Lemma appends_rename_rule (self : RenameProject) (rule : str * str) :
  appends (rename_rule self rule).
Proof.
  unfold rename_rule. destruct rule as [old_path new_path]. cbv zeta.
  repeat appends_step.
Qed.

Lemma appends_rename_paths (self : RenameProject) : appends (rename_paths self).
Proof. apply appends_for_each. intros. apply appends_rename_rule. Qed.

Lemma appends_process_all_files (self : RenameProject) :
  appends (process_all_files self).
Proof.
  unfold process_all_files. cbv zeta.
  apply appends_bind; [apply appends_get_fs|]. intros n.
  apply appends_bind; [apply appends_log|]. intros _.
  apply appends_for_each. intros p. apply appends_replace_in_file.
Qed.

Lemma appends_update_git_remote (self : RenameProject) :
  appends (update_git_remote self).
Proof. unfold update_git_remote. cbv zeta. repeat appends_step. Qed.

(** X5. No method takes an entry out of [self.changes] or alters one:
    whatever the tree and the mode, and also when it raises, each of
    [replace_in_file], [rename_paths], [process_all_files],
    [update_git_remote] and [run] leaves the log it found as the start
    of the log it leaves; [run] adds at least the message of its first
    step. *)
Theorem log_only_grows (self : RenameProject) (p : path) (w : world) :
  appends (replace_in_file self p) /\
  appends (rename_paths self) /\
  appends (process_all_files self) /\
  appends (update_git_remote self) /\
  exists more, changes (snd (run self w)) = changes w ++ step1 :: more.
Proof.
  split; [apply appends_replace_in_file|].
  split; [apply appends_rename_paths|].
  split; [apply appends_process_all_files|].
  split; [apply appends_update_git_remote|].
  pose (rest := rename_paths self ;;
                log (nl ++ txt "Step 2: Updating file contents...") ;;
                process_all_files self ;;
                log (nl ++ txt "Step 3: Checking git configuration...") ;;
                update_git_remote self).
  assert (E : run self w = rest (World (fs w) (changes w ++ [step1])))
    by reflexivity.
  assert (H : appends (rename_paths self ;;
                       log (nl ++ txt "Step 2: Updating file contents...") ;;
                       process_all_files self ;;
                       log (nl ++ txt "Step 3: Checking git configuration...") ;;
                       update_git_remote self)).
  { apply appends_bind; [apply appends_rename_paths|]. intros _.
    apply appends_bind; [apply appends_log|]. intros _.
    apply appends_bind; [apply appends_process_all_files|]. intros _.
    apply appends_bind; [apply appends_log|]. intros _.
    apply appends_update_git_remote. }
  destruct (H (World (fs w) (changes w ++ [step1]))) as [more Hm].
  exists more. rewrite E. unfold rest. rewrite Hm. cbn [changes].
  now rewrite <- app_assoc.
Qed.

(** ** Exceptions *)

(** A turn of the loop of [rename_paths] logs one entry, also when it
    raises; it raises only when it applies, behind the entry of the
    move. *)
Lemma rename_rule_entry (self : RenameProject) (rule : str * str) (w : world) :
  match rename_rule self rule w with
  | (Ok _, w') =>
    changes w' = changes w ++ [rename_entry (fs w) rule]
  | (Raise _, w') =>
    dry_run self = false /\
    changes w' = changes w ++ [renaming_entry rule]
  end.
Proof.
  unfold rename_entry.
  destruct (path_exists (fs w) (parts (fst rule))) eqn:E.
  - destruct (dry_run self) eqn:D.
    + rewrite rename_rule_preview by assumption. reflexivity.
    + rewrite rename_rule_apply by assumption. cbv zeta.
      destruct (mkdir_p _ _) as [n1|e]; [|now split].
      destruct (shutil_move _ _ _) as [n2|e]; [reflexivity | now split].
  - rewrite rename_rule_missing by assumption. reflexivity.
Qed.


Lemma rename_rules_count (self : RenameProject) (rules : list (str * str)) :
  forall w u w',
    for_each rules (rename_rule self) w = (Ok u, w') ->
    length (changes w') = length (changes w) + length rules.
Proof.
  induction rules as [|r rules IH]; intros w u w' H.
  - injection H as _ <-. simpl. lia.
  - cbn [for_each] in H. unfold bind in H.
    pose proof (rename_rule_entry self r w) as R.
    destruct (rename_rule self r w) as [[u1|e1] w1]; [|discriminate].
    apply IH in H. rewrite H, R, length_app. simpl. lia.
Qed.




(** ** The summary *)

Lemma appends_length (A : Type) (m : M A) (w : world) :
  appends m -> length (changes w) <= length (changes (snd (m w))).
Proof. intros H. destruct (H w) as [more E]. rewrite E, length_app. lia. Qed.

Lemma process_spec_length (self : RenameProject) (files : list path) (w : world) :
  length (changes w) <= length (changes (process_spec self files w)).
Proof.
  pose proof (appends_length _ (for_each files (replace_in_file self)) w) as H.
  rewrite for_each_replace in H. apply H.
  apply appends_for_each. intros. apply appends_replace_in_file.
Qed.

Lemma git_patch_length (self : RenameProject) (w : world) :
  length (changes w) <= length (changes (git_patch_spec self w)).
Proof.
  pose proof (appends_length _ (update_git_remote self) w) as H.
  rewrite update_git_remote_eq in H. apply H, appends_update_git_remote.
Qed.

(** X8. The number in the summary line of a run that returns counts the
    messages of the three steps, one entry for each of the three rename
    rules (a move or a warning) and the entry with the number of files,
    besides the entries of the files and of the git configuration: on an
    object with an empty log it is at least 7, also when the run finds
    nothing to change. *)
Theorem summary_counts_messages (self : RenameProject) (w : world) (n : nat) :
  fst (summary self w) = Ok n ->
  n = length (changes (snd (run self w))) /\
  length (changes w) + 7 <= n.
Proof.
  unfold summary, bind. rewrite run_eq.
  destruct (rename_paths self (logged w [step1])) as [[u|e] w1] eqn:E;
    [|discriminate].
  cbn [fst snd]. intros H. apply Ok_inj in H. split; [now symmetry|].
  subst n. apply rename_rules_count in E.
  cbn [logged changes] in E. rewrite length_app in E.
  change (length path_renames) with 3 in E. cbn [length] in E.
  unfold after_renames. cbv zeta.
  set (w2 := logged w1 [step2]).
  set (files := collect (fs w2) []).
  set (w3 := process_spec self files (logged w2 [processing_entry files])).
  pose proof (git_patch_length self (logged w3 [step3])) as G.
  pose proof (process_spec_length self files
                (logged w2 [processing_entry files])) as P.
  fold w3 in P. unfold w2 in P.
  cbn [logged changes] in G, P. rewrite !length_app in G, P.
  rewrite length_app in P. cbn [length] in G, P. lia.
Qed.

Lemma summary_counts_messages_witness :
  fst (summary (New (txt ".") true) (World (Dir []) [])) = Ok 7 /\
  7 = length (changes (snd (run (New (txt ".") true) (World (Dir []) [])))) /\
  length (changes (World (Dir []) [])) + 7 <= 7.
Proof.
  split; [vm_compute; reflexivity|].
  apply (summary_counts_messages (New (txt ".") true) (World (Dir []) []) 7).
  vm_compute. reflexivity.
Defined.

(** ** The rewriting of the files *)

Lemma is_dir_kind (n : node) (p : path) :
  is_dir n p = match kind_of n p with KDir => true | _ => false end.
Proof.
  unfold is_dir, kind_of. destruct (lookup n p) as [[d wr|es]|]; reflexivity.
Qed.

(** A file written keeps its place: what exists and what is a directory
    stays so. *)
Lemma replace_spec_shape (self : RenameProject) (q p : path) (w : world) :
  path_exists (fs (replace_in_file_spec self q w)) p = path_exists (fs w) p /\
  is_dir (fs (replace_in_file_spec self q w)) p = is_dir (fs w) p.
Proof.
  rewrite !path_exists_kind, !is_dir_kind.
  destruct (path_eq_dec p q) as [->|N].
  - destruct (replace_spec_fs self q w) as [->|[c [d [_ [L ->]]]]];
      [now split|].
    rewrite (kind_update_same q _ d None _ None L).
    apply kind_of_file in L. rewrite L. now split.
  - rewrite (replace_spec_kind_other self q p w N). now split.
Qed.

Lemma process_spec_shape (self : RenameProject) (files : list path) (p : path) :
  forall w,
    path_exists (fs (process_spec self files w)) p = path_exists (fs w) p /\
    is_dir (fs (process_spec self files w)) p = is_dir (fs w) p.
Proof.
  induction files as [|q files IH]; intros w; [now split|].
  rewrite process_spec_cons.
  destruct (IH (replace_in_file_spec self q w)) as [H1 H2].
  destruct (replace_spec_shape self q p w) as [H3 H4].
  split; congruence.
Qed.

(** The walk lists only files it reaches through kept directories. *)
Lemma collect_kept (n : node) :
  forall here q,
    In q (collect n here) ->
    exists p, q = here ++ p /\ forallb keep_dir (removelast p) = true.
Proof.
  induction n as [data wr|es IH] using node_induction; intros here q H.
  - contradiction.
  - rewrite collect_dir, in_app_iff, filter_In, in_map_iff in H.
    destruct H as [[[x [<- Hx]] Hs]|H].
    + now exists [x].
    + destruct (collect_dirs_in _ _ _ H) as [d [c [p [He [-> [Hp Hc]]]]]].
      unfold collect_dirs in H. apply in_flat_map in H as [[d' c'] [He' H]].
      cbn [fst snd] in H. destruct c' as [|es']; [contradiction|].
      destruct (keep_dir d') eqn:K; [|contradiction].
      rewrite Forall_forall in IH.
      apply (IH _ He') in H as [p' [E Hk]]. cbn [snd] in E.
      rewrite <- app_assoc in E. apply app_inv_head in E.
      injection E as <- <-.
      exists (d :: p). split; [reflexivity|].
      destruct p as [|y p]; [congruence|].
      cbn [removelast forallb]. rewrite K. exact Hk.
Qed.

Lemma collect_root_kept (n : node) (p : path) :
  In p (collect n []) ->
  should_process_file p = true /\ forallb keep_dir (removelast p) = true.
Proof.
  intros H. split.
  - now apply (collect_shape n [] p).
  - apply collect_kept in H as [p' [-> H]]. exact H.
Qed.

(** X9. What [replace_in_file] writes when it applies: for a file that
    can be read and written, reading it afterwards gives what the loop
    over the rules returns for the content it had, and at every other
    path the tree is as before (the same kind of node, the same
    data). *)
Theorem replace_in_file_writes (self : RenameProject) (p : path) (w : world)
        (content : str) :
  dry_run self = false ->
  lookup (fs w) p = Some (File (Ok content) None) ->
  let w' := snd (replace_in_file self p w) in
  (exists t lines,
     apply_rules replacements content [] = Ok (t, lines) /\
     read_text (fs w') p = Ok t) /\
  forall q, q <> p -> kind_of (fs w') q = kind_of (fs w) q.
Proof.
  intros D L w'. subst w'. rewrite replace_in_file_eq. cbn [snd]. split.
  - exists (pipeline replacements content),
           (change_lines replacements content).
    split; [apply rewrite_ok|].
    assert (K : kind_of (fs w) p = KFile (Ok content) None)
      by (apply kind_of_file; exact L).
    unfold replace_in_file_spec. rewrite (read_text_kind (fs w) p), K, D.
    rewrite orb_false_r.
    destruct (str_eqb (pipeline replacements content) content) eqn:E.
    + cbn [logged fs]. rewrite read_text_kind, K.
      apply str_eqb_eq in E. now rewrite E.
    + rewrite (write_text_kind _ _ _ _ K). cbn [fs].
      rewrite read_text_kind, (kind_update_same p _ _ None _ None L).
      reflexivity.
  - intros q N. now apply replace_spec_kind_other.
Qed.

Lemma replace_in_file_writes_witness :
  read_text
    (fs (snd (replace_in_file (New (txt ".") false) [txt "README.md"]
                (World (Dir [(txt "README.md", file "claude-code.nvim")]) []))))
    [txt "README.md"] = Ok (txt "claude-code-ide.nvim").
Proof.
  destruct (replace_in_file_writes (New (txt ".") false) [txt "README.md"]
              (World (Dir [(txt "README.md", file "claude-code.nvim")]) [])
              (txt "claude-code.nvim") eq_refl eq_refl)
    as [[t [lines [H1 H2]]] _].
  rewrite H2. assert (H3 : apply_rules replacements (txt "claude-code.nvim") []
                           = Ok (txt "claude-code-ide.nvim",
                                 change_lines replacements
                                              (txt "claude-code.nvim")))
    by (vm_compute; reflexivity).
  rewrite H3 in H1. apply Ok_inj, pair_inj in H1 as [<- _]. reflexivity.
Defined.

(** X10. The rewriting of the files changes contents only, and only of
    files of the walk: after [process_all_files], in both modes, every
    path exists or not and is a directory or not as before, a further
    walk lists the same files, and a path whose name is not eligible, or
    with a hidden or skipped directory on the way to it, holds what it
    held (nothing under [.git], [node_modules], [build], [dist] or
    [__pycache__] is touched). *)
Theorem content_step_confined (self : RenameProject) (w : world) (p : path) :
  let w' := snd (process_all_files self w) in
  path_exists (fs w') p = path_exists (fs w) p /\
  is_dir (fs w') p = is_dir (fs w) p /\
  collect (fs w') [] = collect (fs w) [] /\
  (should_process_file p = false \/
   forallb keep_dir (removelast p) = false ->
   kind_of (fs w') p = kind_of (fs w) p).
Proof.
  intros w'. subst w'. rewrite process_all_files_eq. cbn [snd].
  set (files := collect (fs w) []).
  set (w1 := logged w [processing_entry files]).
  destruct (process_spec_shape self files p w1) as [H1 H2].
  split; [exact H1|]. split; [exact H2|]. split.
  - now rewrite process_spec_collect.
  - intros H. rewrite process_spec_kind_other; [reflexivity|].
    intros Hin. apply collect_root_kept in Hin as [Hs Hk].
    destruct H as [H|H]; congruence.
Qed.

Lemma replace_spec_kind_same (self : RenameProject) (p : path) (w : world)
      (c : str) :
  dry_run self = false ->
  kind_of (fs w) p = KFile (Ok c) None ->
  kind_of (fs (replace_in_file_spec self p w)) p =
  KFile (Ok (pipeline replacements c)) None.
Proof.
  intros D K. unfold replace_in_file_spec.
  rewrite (read_text_kind (fs w) p), K, D, orb_false_r.
  destruct (str_eqb (pipeline replacements c) c) eqn:E.
  - cbn [logged fs]. apply str_eqb_eq in E. now rewrite E.
  - rewrite (write_text_kind _ _ _ _ K). cbn [fs].
    apply kind_of_file in K.
    exact (kind_update_same p _ _ None _ None K).
Qed.

Lemma process_spec_kind_same (self : RenameProject) (files : list path)
      (p : path) (c : str) :
  dry_run self = false -> NoDup files -> In p files ->
  forall w,
    kind_of (fs w) p = KFile (Ok c) None ->
    kind_of (fs (process_spec self files w)) p =
    KFile (Ok (pipeline replacements c)) None.
Proof.
  intros D N. induction N as [|q files Hq N IH]; intros Hin w K.
  - contradiction.
  - rewrite process_spec_cons. destruct Hin as [->|Hin].
    + rewrite process_spec_kind_other by exact Hq.
      now apply replace_spec_kind_same.
    + apply IH; [exact Hin|].
      rewrite replace_spec_kind_other; [exact K|].
      intros ->. contradiction.
Qed.

(** X11. In a tree without duplicate names, [process_all_files] that
    applies rewrites every file of its walk once: a file of the walk
    that can be read and written holds afterwards what the loop over the
    rules returns for the content it held before. *)
Theorem content_step_rewrites (self : RenameProject) (w : world) (p : path)
        (content : str) :
  dry_run self = false -> wf (fs w) = true ->
  In p (collect (fs w) []) ->
  lookup (fs w) p = Some (File (Ok content) None) ->
  exists t lines,
    apply_rules replacements content [] = Ok (t, lines) /\
    read_text (fs (snd (process_all_files self w))) p = Ok t.
Proof.
  intros D W Hin L.
  exists (pipeline replacements content), (change_lines replacements content).
  split; [apply rewrite_ok|].
  rewrite process_all_files_eq. cbn [snd]. rewrite read_text_kind.
  rewrite (process_spec_kind_same self _ p content D); try reflexivity.
  - now apply collect_nodup.
  - exact Hin.
  - cbn [logged fs]. now apply kind_of_file.
Qed.

Lemma content_step_rewrites_witness :
  exists t lines,
    apply_rules replacements (txt "claude-code.nvim") [] = Ok (t, lines) /\
    read_text
      (fs (snd (process_all_files (New (txt ".") false)
                  (World (Dir [(txt "README.md", file "claude-code.nvim")])
                         []))))
      [txt "README.md"] = Ok t.
Proof.
  apply (content_step_rewrites (New (txt ".") false)
           (World (Dir [(txt "README.md", file "claude-code.nvim")]) [])
           [txt "README.md"] (txt "claude-code.nvim"));
    [reflexivity | reflexivity | vm_compute; left; reflexivity | reflexivity].
Defined.

(** ** The git configuration *)

Lemma str_replace_absent (old new s : str) :
  contains old s = false -> str_replace old new s = s.
Proof.
  intros H. unfold str_replace. apply count_zero_sub.
  exact (literal_count_zero old new s true H).
Qed.

(** X12. [update_git_remote] in a run that applies, on a configuration
    that can be read and written: reading it afterwards gives its content
    with every "claude-code.nvim" replaced, at every other path the tree
    is as before, and a second call finds nothing to do: it returns with
    the tree and the log unchanged. *)
Theorem git_remote_patched (self : RenameProject) (w : world) (content : str) :
  dry_run self = false ->
  lookup (fs w) git_config = Some (File (Ok content) None) ->
  let w' := snd (update_git_remote self w) in
  read_text (fs w') git_config = Ok (str_replace old_id new_id content) /\
  (forall q, q <> git_config -> kind_of (fs w') q = kind_of (fs w) q) /\
  update_git_remote self w' = (Ok tt, w').
Proof.
  intros D L w'. subst w'. rewrite !update_git_remote_eq. cbn [snd].
  assert (K : kind_of (fs w) git_config = KFile (Ok content) None)
    by (apply kind_of_file; exact L).
  assert (F : forall q, q <> git_config ->
              kind_of (fs (git_patch_spec self w)) q = kind_of (fs w) q).
  { intros q N.
    destruct (git_patch_fs self w) as [[-> _]|[c [d [L' ->]]]];
      [reflexivity|].
    now apply (kind_update_other git_config _ q d None). }
  assert (R : kind_of (fs (git_patch_spec self w)) git_config =
              KFile (Ok (str_replace old_id new_id content)) None).
  { unfold git_patch_spec. rewrite path_exists_kind, read_text_kind, K, D.
    destruct (contains (txt "claude-code.nvim") content) eqn:C.
    - rewrite (write_text_kind _ _ _ _ K). cbn [fs].
      exact (kind_update_same git_config _ _ None _ None L).
    - unfold old_id. rewrite (str_replace_absent _ _ _ C). exact K. }
  split; [now rewrite read_text_kind, R|]. split; [exact F|].
  f_equal. unfold git_patch_spec at 1.
  rewrite path_exists_kind, read_text_kind, R.
  unfold old_id, new_id. now rewrite str_replace_kills.
Qed.

Lemma git_remote_patched_witness :
  read_text
    (fs (snd (update_git_remote (New (txt ".") false)
                (World (Dir [(txt ".git",
                              Dir [(txt "config",
                                    file "url = x/claude-code.nvim.git")])])
                       []))))
    git_config =
  Ok (str_replace old_id new_id (txt "url = x/claude-code.nvim.git")).
Proof.
  apply (git_remote_patched (New (txt ".") false)
           (World (Dir [(txt ".git",
                         Dir [(txt "config",
                               file "url = x/claude-code.nvim.git")])]) [])
           (txt "url = x/claude-code.nvim.git") eq_refl eq_refl).
Defined.

(** ** The moves of [rename_paths] *)

Lemma mem_assoc_none (x : name) (es : list (name * node)) :
  mem x (map fst es) = false -> assoc x es = None.
Proof.
  induction es as [|[y c] es IH]; [reflexivity|]. unfold mem. simpl.
  intros H. apply orb_false_iff in H as [H1 H2]. rewrite H1. now apply IH.
Qed.

Lemma assoc_drop_same (a : name) (es : list (name * node)) :
  distinct (map fst es) = true -> assoc a (drop_entry a es) = None.
Proof.
  induction es as [|[y c] es IH]; [reflexivity|]. simpl.
  intros H. apply andb_true_iff in H as [Hm Hd].
  destruct (str_eqb a y) eqn:E.
  - apply str_eqb_eq in E. subst y. apply mem_assoc_none.
    now destruct (mem a (map fst es)).
  - simpl. rewrite E. now apply IH.
Qed.

Lemma remove_cons (y : name) (d : path) (a : name) (es : list (name * node)) :
  remove (Dir es) (y :: d ++ [a]) =
  Dir (change y (fun c => remove c (d ++ [a])) es).
Proof. simpl. destruct (d ++ [a]) eqn:E; [now destruct d | reflexivity]. Qed.

Lemma put_cons (y : name) (d : path) (b : name) (x : node)
      (es : list (name * node)) :
  put (Dir es) (y :: d ++ [b]) x =
  match assoc y es with
  | Some c =>
    match put c (d ++ [b]) x with
    | Some c' => Some (Dir (change y (fun _ => c') es))
    | None => None
    end
  | None => None
  end.
Proof. simpl. destruct (d ++ [b]) eqn:E; [now destruct d | reflexivity]. Qed.

(** A node renamed in a directory without duplicate names is no longer
    found under its old name. *)
Lemma rename_sibling_gone (d : path) (a b : name) (x : node) :
  forall n n',
    lookup n (d ++ [a]) = Some x -> lookup n (d ++ [b]) = None ->
    (forall es, lookup n d = Some (Dir es) -> distinct (map fst es) = true) ->
    put (remove n (d ++ [a])) (d ++ [b]) x = Some n' ->
    lookup n' (d ++ [a]) = None.
Proof.
  induction d as [|y d IH]; intros n n' Ha Hb Hd Hp.
  - simpl in *. destruct n as [|es]; [discriminate|].
    destruct (assoc a es) as [c|] eqn:Ea; [|discriminate].
    destruct (assoc b es) as [c'|] eqn:Eb; [discriminate|].
    assert (N : b <> a) by (intros ->; congruence).
    rewrite (assoc_drop_other _ _ _ N), Eb in Hp. injection Hp as <-.
    simpl. rewrite assoc_app, (assoc_drop_same a es (Hd es eq_refl)). simpl.
    assert (N' : a <> b) by congruence.
    apply str_eqb_neq in N'. now rewrite N'.
  - change ((y :: d) ++ [a]) with (y :: d ++ [a]) in *.
    change ((y :: d) ++ [b]) with (y :: d ++ [b]) in *.
    cbn [lookup] in Ha, Hb, Hd. destruct n as [|es]; [discriminate|].
    destruct (assoc y es) as [c|] eqn:Ey; [|discriminate].
    rewrite remove_cons, put_cons, assoc_change_same, Ey in Hp. simpl in Hp.
    destruct (put (remove c (d ++ [a])) (d ++ [b]) x) as [c'|] eqn:Hc;
      [|discriminate].
    injection Hp as <-. cbn [lookup].
    rewrite !assoc_change_same, Ey. simpl.
    now apply (IH c c').
Qed.

(** A rename below the directory [y] of the root leaves the other
    entries of the root alone. *)
Lemma rename_sibling_frame (y : name) (d : path) (a b : name) (x : node)
      (n n' : node) :
  put (remove n (y :: d ++ [a])) (y :: d ++ [b]) x = Some n' ->
  forall z q, z <> y -> lookup n' (z :: q) = lookup n (z :: q).
Proof.
  intros Hp z q N. destruct n as [data wr|es].
  - replace (remove (File data wr) (y :: d ++ [a])) with (File data wr) in Hp
      by (simpl; destruct (d ++ [a]); reflexivity).
    simpl in Hp. destruct (d ++ [b]); discriminate.
  - rewrite remove_cons, put_cons, assoc_change_same in Hp.
    destruct (assoc y es) as [c|]; [|discriminate]. simpl in Hp.
    destruct (put _ _ x) as [c'|]; [|discriminate]. injection Hp as <-.
    cbn [lookup]. now rewrite !assoc_change_other.
Qed.

Lemma wf_lookup (p : path) :
  forall n c, wf n = true -> lookup n p = Some c -> wf c = true.
Proof.
  induction p as [|x p IH]; intros n c W L.
  - injection L as <-. exact W.
  - cbn [lookup] in L. destruct n as [|es]; [discriminate|].
    destruct (assoc x es) as [c0|] eqn:E; [|discriminate].
    apply wf_dir in W as [_ F]. rewrite Forall_forall in F.
    apply assoc_in in E. apply (IH c0 c); [|exact L]. exact (F _ E).
Qed.

Lemma assoc_none_mem (x : name) (es : list (name * node)) :
  assoc x es = None -> mem x (map fst es) = false.
Proof.
  induction es as [|[y c] es IH]; [reflexivity|]. unfold mem. simpl.
  destruct (str_eqb x y); [discriminate|]. exact IH.
Qed.

Lemma wf_dir_intro (es : list (name * node)) :
  distinct (map fst es) = true ->
  Forall (fun e => wf (snd e) = true) es -> wf (Dir es) = true.
Proof.
  intros Hd F. cbn [wf]. rewrite Hd. cbn [andb]. clear Hd.
  induction F as [|[y c] es Hc F IH]; [reflexivity|].
  cbn [snd] in Hc. rewrite Hc. exact IH.
Qed.

Lemma map_fst_change (y : name) (f : node -> node) (es : list (name * node)) :
  map fst (change y f es) = map fst es.
Proof.
  induction es as [|[z c] es IH]; [reflexivity|]. simpl.
  destruct (str_eqb y z); simpl; [reflexivity | now rewrite IH].
Qed.

Lemma wf_change (y : name) (f : node -> node) (es : list (name * node)) :
  wf (Dir es) = true ->
  (forall c, assoc y es = Some c -> wf c = true -> wf (f c) = true) ->
  wf (Dir (change y f es)) = true.
Proof.
  intros W Hf. apply wf_dir in W as [Hd F]. apply wf_dir_intro.
  - now rewrite map_fst_change.
  - clear Hd. induction F as [|[z c] es Hc F IH]; [constructor|].
    simpl in *. destruct (str_eqb y z).
    + constructor; [|exact F]. cbn [snd]. now apply Hf.
    + constructor; [exact Hc|]. now apply IH.
Qed.

Lemma in_drop_entry (a : name) (e : name * node) (es : list (name * node)) :
  In e (drop_entry a es) -> In e es.
Proof.
  induction es as [|[z c] es IH]; [contradiction|]. simpl.
  destruct (str_eqb a z); [now right|]. intros [H|H]; [now left|].
  right. now apply IH.
Qed.

Lemma wf_drop (a : name) (es : list (name * node)) :
  wf (Dir es) = true -> wf (Dir (drop_entry a es)) = true.
Proof.
  intros W. apply wf_dir in W as [Hd F]. apply wf_dir_intro.
  - clear F. induction es as [|[z c] es IH]; [reflexivity|].
    simpl in *. apply andb_true_iff in Hd as [Hm Hd].
    destruct (str_eqb a z); [exact Hd|]. simpl.
    rewrite (IH Hd), andb_true_r.
    destruct (mem z (map fst (drop_entry a es))) eqn:M; [|reflexivity].
    apply mem_in, in_map_iff in M as [e [<- He]].
    apply in_drop_entry in He.
    assert (M : mem (fst e) (map fst es) = true)
      by (apply mem_in, in_map; exact He).
    now rewrite M in Hm.
  - rewrite Forall_forall in *. intros e He. apply F.
    now apply in_drop_entry in He.
Qed.

Lemma distinct_snoc (b : name) (l : list name) :
  distinct l = true -> mem b l = false -> distinct (l ++ [b]) = true.
Proof.
  induction l as [|z l IH]; [reflexivity|]. intros Hd Hm.
  cbn [distinct] in Hd. apply andb_true_iff in Hd as [Hz Hd].
  unfold mem in Hm. cbn [existsb] in Hm.
  apply orb_false_iff in Hm as [Hb Hm].
  cbn [app distinct]. rewrite (IH Hd Hm), andb_true_r.
  apply negb_true_iff in Hz. apply negb_true_iff.
  destruct (mem z (l ++ [b])) eqn:M; [|reflexivity].
  apply mem_in, in_app_iff in M as [M|[M|[]]].
  - apply mem_in in M. congruence.
  - subst z. now rewrite str_eqb_refl in Hb.
Qed.

Lemma wf_snoc (b : name) (x : node) (es : list (name * node)) :
  wf (Dir es) = true -> wf x = true -> assoc b es = None ->
  wf (Dir (es ++ [(b, x)])) = true.
Proof.
  intros W Wx Hb. apply wf_dir in W as [Hd F]. apply wf_dir_intro.
  - rewrite map_app. apply distinct_snoc; [exact Hd|].
    now apply assoc_none_mem.
  - apply Forall_app. split; [exact F|]. now constructor.
Qed.

Lemma wf_assoc (y : name) (c : node) (es : list (name * node)) :
  wf (Dir es) = true -> assoc y es = Some c -> wf c = true.
Proof.
  intros W E. apply wf_dir in W as [_ F]. rewrite Forall_forall in F.
  apply assoc_in in E. exact (F _ E).
Qed.

Lemma wf_remove (p : path) : forall n, wf n = true -> wf (remove n p) = true.
Proof.
  induction p as [|x p IH]; intros n W; [exact W|].
  destruct n as [data wr|es]; [now destruct p|].
  destruct p as [|y p].
  - now apply wf_drop.
  - change (remove (Dir es) (x :: y :: p))
      with (Dir (change x (fun c => remove c (y :: p)) es)).
    apply wf_change; [exact W|]. intros c _ Wc. now apply IH.
Qed.

(** A rename keeps the names of every directory distinct. *)
Lemma rename_sibling_wf (d : path) (a b : name) (x : node) :
  forall n n',
    wf n = true -> wf x = true ->
    put (remove n (d ++ [a])) (d ++ [b]) x = Some n' -> wf n' = true.
Proof.
  induction d as [|y d IH]; intros n n' W Wx Hp.
  - simpl in Hp. destruct n as [|es]; [discriminate|].
    pose proof (wf_drop a es W) as Wd.
    destruct (assoc b (drop_entry a es)) eqn:Eb; injection Hp as <-.
    + apply wf_change; [exact Wd|]. intros; exact Wx.
    + now apply wf_snoc.
  - change ((y :: d) ++ [a]) with (y :: d ++ [a]) in *.
    change ((y :: d) ++ [b]) with (y :: d ++ [b]) in *.
    destruct n as [data wr|es].
    + replace (remove (File data wr) (y :: d ++ [a])) with (File data wr)
        in Hp by (simpl; destruct (d ++ [a]); reflexivity).
      simpl in Hp. destruct (d ++ [b]); discriminate.
    + rewrite remove_cons, put_cons, assoc_change_same in Hp.
      destruct (assoc y es) as [c|] eqn:Ey; [|discriminate]. simpl in Hp.
      destruct (put (remove c (d ++ [a])) (d ++ [b]) x) as [c'|] eqn:Hc;
        [|discriminate].
      injection Hp as <-.
      apply wf_change.
      * apply wf_change; [exact W|]. intros c0 _ W0. now apply wf_remove.
      * intros c0 _ _. apply (IH c c'); [|exact Wx|exact Hc].
        exact (wf_assoc _ _ _ W Ey).
Qed.

Lemma lookup_exists (n : node) (p : path) :
  path_exists n p = false <-> lookup n p = None.
Proof. unfold path_exists. destruct (lookup n p); split; congruence. Qed.

(** One turn of the loop of [rename_paths] that applies, for a rule whose
    new path is free. *)
Lemma rename_rule_moves (self : RenameProject) (rule : str * str) (w : world) :
  dry_run self = false -> sibling rule ->
  lookup (fs w) (parts (snd rule)) = None ->
  wf (fs w) = true ->
  exists w',
    rename_rule self rule w = (Ok tt, w') /\
    wf (fs w') = true /\
    changes w' = changes w ++ [rename_entry (fs w) rule] /\
    lookup (fs w') (parts (snd rule)) = lookup (fs w) (parts (fst rule)) /\
    lookup (fs w') (parts (fst rule)) = None /\
    forall z q, z <> top rule ->
                lookup (fs w') (z :: q) = lookup (fs w) (z :: q).
Proof.
  intros D [d [a [b [Ho Hn]]]] Hnew W. unfold rename_entry.
  destruct (path_exists (fs w) (parts (fst rule))) eqn:E.
  - rewrite rename_rule_apply by assumption. cbv zeta.
    unfold path_exists in E.
    destruct (lookup (fs w) (parts (fst rule))) as [x|] eqn:L; [|discriminate].
    rewrite Ho, Hn in *. rewrite removelast_last.
    rewrite (mkdir_p_dir _ _ (parent_is_dir _ _ _ _ L)).
    destruct (rename_sibling _ _ _ _ _ L Hnew) as [n' [Hp Hl]].
    assert (M : shutil_move (fs w) ((top rule :: d) ++ [a])
                            ((top rule :: d) ++ [b]) = Ok n').
    { unfold shutil_move, os_rename. now rewrite L, Hnew, Hp. }
    rewrite M. eexists. split; [reflexivity|]. cbn [changes fs logged].
    split; [|split; [reflexivity|]; split; [exact Hl|]; split].
    + apply (rename_sibling_wf _ _ _ _ _ _ W (wf_lookup _ _ _ W L) Hp).
    + apply (rename_sibling_gone _ _ _ _ _ _ L Hnew); [|exact Hp].
      intros es Hes. apply wf_lookup in Hes; [|exact W].
      now apply wf_dir in Hes.
    + now apply (rename_sibling_frame _ _ _ _ _ _ _ Hp).
  - rewrite rename_rule_missing by assumption.
    apply lookup_exists in E.
    eexists. split; [reflexivity|]. cbn [changes fs logged].
    split; [exact W|].
    split; [reflexivity|]. split; [congruence|]. split; [exact E|].
    reflexivity.
Qed.

Lemma sibling_head (rule : str * str) :
  sibling rule ->
  exists p q, parts (fst rule) = top rule :: p /\
              parts (snd rule) = top rule :: q.
Proof. intros [d [a [b [Ho Hn]]]]. now exists (d ++ [a]), (d ++ [b]). Qed.

(** The loop of [rename_paths] that applies, for rules below different
    directories of the root whose new paths are free. *)
Lemma rename_rules_move (self : RenameProject) (rules : list (str * str)) :
  dry_run self = false -> NoDup (map top rules) -> Forall sibling rules ->
  forall w,
    (forall rule, In rule rules ->
                  lookup (fs w) (parts (snd rule)) = None) ->
    wf (fs w) = true ->
    exists w',
      for_each rules (rename_rule self) w = (Ok tt, w') /\
      wf (fs w') = true /\
      changes w' = changes w ++ map (rename_entry (fs w)) rules /\
      (forall rule, In rule rules ->
         lookup (fs w') (parts (snd rule)) = lookup (fs w) (parts (fst rule)) /\
         lookup (fs w') (parts (fst rule)) = None) /\
      (forall z q, ~ In z (map top rules) ->
                   lookup (fs w') (z :: q) = lookup (fs w) (z :: q)).
Proof.
  intros D N S. induction rules as [|r rules IH]; intros w Hnew W.
  - exists w. split; [reflexivity|]. split; [exact W|].
    split; [simpl; now rewrite app_nil_r|].
    split; [intros rule []|reflexivity].
  - apply NoDup_cons_iff in N as [Nr N].
    apply Forall_cons_iff in S as [Sr S].
    destruct (rename_rule_moves self r w D Sr (Hnew r (or_introl eq_refl)) W)
      as [w1 [E1 [W1 [C1 [L1 [G1 F1]]]]]].
    assert (T : forall rule, In rule rules -> top rule <> top r).
    { intros rule Hin E. apply Nr. rewrite <- E. now apply in_map. }
    destruct (IH N S w1) as [w' [E2 [W2 [C2 [L2 F2]]]]]; [|exact W1|].
    { intros rule Hin. rewrite Forall_forall in S.
      destruct (sibling_head rule (S rule Hin)) as [p [q [_ Hq]]].
      rewrite Hq, (F1 _ _ (T rule Hin)), <- Hq. apply Hnew. now right. }
    destruct (sibling_head r Sr) as [pr [qr [Hpr Hqr]]].
    exists w'. split; [|split; [exact W2|]; split; [|split]].
    + cbn [for_each]. unfold bind. rewrite E1. exact E2.
    + rewrite C2, C1, <- app_assoc. cbn [map app]. do 2 f_equal.
      apply map_ext_in. intros rule Hin. unfold rename_entry, path_exists.
      rewrite Forall_forall in S.
      destruct (sibling_head rule (S rule Hin)) as [p [q [Hp _]]].
      now rewrite Hp, (F1 _ _ (T rule Hin)).
    + intros rule [<-|Hin].
      * rewrite Hqr, Hpr, !(F2 _ _ Nr), <- Hqr, <- Hpr. now split.
      * destruct (L2 rule Hin) as [A B]. split; [|exact B].
        rewrite A. rewrite Forall_forall in S.
        destruct (sibling_head rule (S rule Hin)) as [p [q [Hp _]]].
        now rewrite Hp, (F1 _ _ (T rule Hin)).
    + intros z q Hz. rewrite F2 by (intros H; apply Hz; now right).
      apply F1. intros ->. apply Hz. now left.
Qed.

Lemma path_renames_tops :
  map top path_renames = [txt "lua"; txt "doc"; txt "plugin"].
Proof. vm_compute. reflexivity. Qed.

Lemma path_renames_sibling : Forall sibling path_renames.
Proof.
  repeat constructor.
  - exists [], (txt "claude-code"), (txt "claude-code-ide").
    split; vm_compute; reflexivity.
  - exists [], (txt "claude-code.txt"), (txt "claude-code-ide.txt").
    split; vm_compute; reflexivity.
  - exists [], (txt "claude-code.lua"), (txt "claude-code-ide.lua").
    split; vm_compute; reflexivity.
Qed.

(** X13. [rename_paths] that applies, in a tree without duplicate names
    in which none of the three new paths is taken: it returns; it logs
    for each rule the move or the warning that the tree it started from
    decides; whatever was at an old path is at the new path, and nothing
    is at the old path any more; and every path whose first component is
    not [lua], [doc] or [plugin] leads to what it led to. *)
Theorem rename_paths_moves (self : RenameProject) (w : world) :
  dry_run self = false -> wf (fs w) = true ->
  (forall rule, In rule path_renames ->
                path_exists (fs w) (parts (snd rule)) = false) ->
  exists w',
    rename_paths self w = (Ok tt, w') /\
    changes w' = changes w ++ map (rename_entry (fs w)) path_renames /\
    (forall rule, In rule path_renames ->
       lookup (fs w') (parts (snd rule)) = lookup (fs w) (parts (fst rule)) /\
       path_exists (fs w') (parts (fst rule)) = false) /\
    (forall z q, ~ In z [txt "lua"; txt "doc"; txt "plugin"] ->
                 lookup (fs w') (z :: q) = lookup (fs w) (z :: q)).
Proof.
  intros D W Hnew.
  destruct (rename_rules_move self path_renames D) with (w := w)
    as [w' [E [_ [C [L F]]]]].
  - rewrite path_renames_tops.
    repeat constructor; simpl; intuition discriminate.
  - apply path_renames_sibling.
  - intros rule Hin. apply lookup_exists, Hnew, Hin.
  - exact W.
  - exists w'. split; [exact E|]. split; [exact C|]. split.
    + intros rule Hin. destruct (L rule Hin) as [A B]. split; [exact A|].
      now apply lookup_exists.
    + rewrite path_renames_tops in F. exact F.
Qed.

Lemma rename_paths_moves_witness :
  exists w',
    rename_paths (New (txt ".") false) (World example_tree []) = (Ok tt, w') /\
    changes w' =
    [] ++ map (rename_entry example_tree) path_renames /\
    (forall rule, In rule path_renames ->
       lookup (fs w') (parts (snd rule)) =
       lookup example_tree (parts (fst rule)) /\
       path_exists (fs w') (parts (fst rule)) = false) /\
    (forall z q, ~ In z [txt "lua"; txt "doc"; txt "plugin"] ->
                 lookup (fs w') (z :: q) = lookup example_tree (z :: q)).
Proof.
  apply (rename_paths_moves (New (txt ".") false) (World example_tree []));
    [reflexivity | vm_compute; reflexivity |].
  intros rule [<-|[<-|[<-|[]]]]; vm_compute; reflexivity.
Defined.

(** ** The names [should_process_file] accepts *)

Lemma rfind_dot_skip (r rest : str) :
  ~ In 46%N r ->
  forall j, rfind_dot (r ++ 46%N :: rest) j = Some (j + length r).
Proof.
  induction r as [|c r IH]; intros H j.
  - simpl. f_equal. lia.
  - cbn [app rfind_dot].
    assert (N : (c =? 46)%N = false).
    { apply N.eqb_neq. intros ->. apply H. now left. }
    rewrite N, IH by (intros Hin; apply H; now right).
    f_equal. simpl. lia.
Qed.

(** [PurePath.suffix] of a name with a dot before its last part. *)
Lemma suffix_dot (base e : str) :
  e <> [] -> ~ In 46%N e ->
  suffix (base ++ txt "." ++ e) =
  match base with [] => [] | _ => txt "." ++ e end.
Proof.
  intros He Hd. unfold suffix. change (txt "." ++ e) with (46%N :: e).
  rewrite rev_app_distr. cbn [rev]. rewrite <- app_assoc. cbn [app].
  rewrite rfind_dot_skip by (rewrite <- in_rev; exact Hd).
  rewrite length_rev, length_app. cbn [length Nat.add].
  assert (L : 0 < length e) by (destruct e; [congruence | simpl; lia]).
  destruct base as [|c base].
  - cbn [length Nat.add].
    replace (0 <? length e) with true by (symmetry; now apply Nat.ltb_lt).
    now rewrite Nat.ltb_irrefl.
  - replace (0 <? length e) with true by (symmetry; now apply Nat.ltb_lt).
    replace (S (length e) <? length (c :: base) + S (length e)) with true
      by (symmetry; apply Nat.ltb_lt; simpl; lia).
    cbn [andb].
    replace (length (c :: base) + S (length e) - S (length e))
      with (length (c :: base)) by lia.
    rewrite skipn_app, skipn_all, Nat.sub_diag. reflexivity.
Qed.

Lemma special_no_dot (base e : str) :
  mem (base ++ txt "." ++ e) special_files = false.
Proof.
  destruct (mem (base ++ txt "." ++ e) special_files) eqn:E; [|reflexivity].
  apply mem_in in E.
  assert (H : In 46%N (base ++ txt "." ++ e)) by apply in_elt.
  destruct E as [E|[E|[E|[E|[]]]]]; rewrite <- E in H; simpl in H;
    intuition discriminate.
Qed.

(** X14. Which names with a dot [should_process_file] accepts: for a
    name that ends in a dot and a non-empty part without a dot, in any
    directory, the file is eligible exactly when something stands before
    that dot and the dot with the last part is one of the text
    extensions.  So only the last extension counts, in the case it is
    written, and a file named like an extension alone ([.json], [.md])
    is not eligible.  (What stands before the dot is taken not to start
    with a dot itself.) *)
Theorem eligible_by_extension (dir : path) (base e : str) :
  e <> [] -> ~ In 46%N e -> hd_error base <> Some 46%N ->
  should_process_file (dir ++ [base ++ txt "." ++ e]) =
  match base with
  | [] => false
  | _ => mem (txt "." ++ e) text_extensions
  end.
Proof.
  intros He Hd _. unfold should_process_file.
  rewrite last_last, special_no_dot, suffix_dot by assumption.
  now destruct base.
Qed.

Lemma eligible_by_extension_witness :
  should_process_file
    ([txt "lua"; txt "claude-code"] ++ [txt "init.test" ++ txt "." ++ txt "lua"])
  = mem (txt "." ++ txt "lua") text_extensions.
Proof.
  apply (eligible_by_extension [txt "lua"; txt "claude-code"]
           (txt "init.test") (txt "lua")).
  - discriminate.
  - simpl. intuition discriminate.
  - discriminate.
Defined.

(** ** A second pass of [rename_paths] *)

Lemma rename_rules_missing (self : RenameProject) (rules : list (str * str)) :
  forall w,
    (forall rule, In rule rules ->
                  path_exists (fs w) (parts (fst rule)) = false) ->
    for_each rules (rename_rule self) w =
    (Ok tt, logged w (map missing_entry rules)).
Proof.
  induction rules as [|r rules IH]; intros w H.
  - cbn [for_each map]. now rewrite logged_nil.
  - cbn [for_each]. unfold bind.
    rewrite rename_rule_missing by (apply H; now left).
    rewrite IH by (intros rule Hin; apply H; now right).
    now rewrite logged_logged.
Qed.

(** X15. After [rename_paths] has applied and returned (a tree without
    duplicate names, the three new paths free), the three old paths are
    gone, so that [rename_paths] called again, in either mode, moves
    nothing and raises nothing: it logs the three warnings and leaves
    the tree as it is. *)
Theorem rename_paths_again (self again : RenameProject) (w : world) :
  dry_run self = false -> wf (fs w) = true ->
  (forall rule, In rule path_renames ->
                path_exists (fs w) (parts (snd rule)) = false) ->
  let w' := snd (rename_paths self w) in
  fst (rename_paths self w) = Ok tt /\
  rename_paths again w' =
  (Ok tt, logged w' (map missing_entry path_renames)).
Proof.
  intros D W Hnew w'. subst w'.
  destruct (rename_rules_move self path_renames D) with (w := w)
    as [w' [E [_ [_ [L _]]]]].
  - rewrite path_renames_tops.
    repeat constructor; simpl; intuition discriminate.
  - apply path_renames_sibling.
  - intros rule Hin. apply lookup_exists, Hnew, Hin.
  - exact W.
  - unfold rename_paths. rewrite E. cbn [fst snd]. split; [reflexivity|].
    apply rename_rules_missing. intros rule Hin.
    apply lookup_exists. now apply L.
Qed.

Lemma rename_paths_again_witness :
  fst (rename_paths (New (txt ".") false) (World example_tree [])) = Ok tt /\
  rename_paths (New (txt ".") true)
    (snd (rename_paths (New (txt ".") false) (World example_tree []))) =
  (Ok tt,
   logged (snd (rename_paths (New (txt ".") false) (World example_tree [])))
          (map missing_entry path_renames)).
Proof.
  apply (rename_paths_again (New (txt ".") false) (New (txt ".") true)
           (World example_tree []));
    [reflexivity | vm_compute; reflexivity |].
  intros rule [<-|[<-|[<-|[]]]]; vm_compute; reflexivity.
Defined.

(** ** A run that applies, from the first step to the last *)

Lemma lookup_app (p q : path) :
  forall n,
    lookup n (p ++ q) =
    match lookup n p with Some c => lookup c q | None => None end.
Proof.
  induction p as [|x p IH]; intros n; [reflexivity|].
  cbn [app lookup]. destruct n as [|es]; [reflexivity|].
  destruct (assoc x es) as [c|]; [apply IH | reflexivity].
Qed.

(** A file below kept directories only is a file the walk reaches. *)
Lemma visited_of_lookup (p : path) :
  forall n d wr,
    p <> [] -> lookup n p = Some (File d wr) ->
    forallb keep_dir (removelast p) = true -> visited n p = true.
Proof.
  induction p as [|x p IH]; intros n d wr Hp L K; [congruence|].
  cbn [lookup] in L. destruct n as [|es]; [discriminate|].
  cbn [visited]. destruct (assoc x es) as [c|]; [|discriminate].
  destruct p as [|y p].
  - injection L as ->. reflexivity.
  - destruct c as [|es']; [discriminate|].
    change (removelast (x :: y :: p)) with (x :: removelast (y :: p)) in K.
    cbn [forallb] in K. apply andb_true_iff in K as [Kx K].
    rewrite Kx. cbn [andb]. apply (IH _ d wr); [discriminate | exact L | exact K].
Qed.

Lemma git_patch_kind_other (self : RenameProject) (w : world) (q : path) :
  q <> git_config ->
  kind_of (fs (git_patch_spec self w)) q = kind_of (fs w) q.
Proof.
  intros N.
  destruct (git_patch_fs self w) as [[-> _]|[c [d [L' ->]]]]; [reflexivity|].
  now apply (kind_update_other git_config _ q d None).
Qed.

Lemma git_patch_shape (self : RenameProject) (w : world) (p : path) :
  path_exists (fs (git_patch_spec self w)) p = path_exists (fs w) p.
Proof.
  rewrite !path_exists_kind. destruct (path_eq_dec p git_config) as [->|N].
  - destruct (git_patch_fs self w) as [[-> _]|[c [d [L ->]]]]; [reflexivity|].
    rewrite (kind_update_same git_config _ d None _ None L).
    apply kind_of_file in L. now rewrite L.
  - now rewrite git_patch_kind_other.
Qed.

Lemma after_renames_shape (self : RenameProject) (w : world) (p : path) :
  path_exists (fs (after_renames self w)) p = path_exists (fs w) p.
Proof.
  unfold after_renames. cbv zeta. rewrite git_patch_shape. cbn [logged fs].
  destruct (process_spec_shape self (collect (fs w) []) p
              (logged (logged w [step2])
                      [processing_entry (collect (fs w) [])])) as [H _].
  exact H.
Qed.

Lemma kept_not_git_config (p : path) :
  forallb keep_dir (removelast p) = true -> p <> git_config.
Proof. intros K ->. vm_compute in K. discriminate. Qed.

(** The second and third step on a file the walk reaches. *)
Lemma after_renames_rewrites (self : RenameProject) (w : world) (p : path)
      (c : str) :
  dry_run self = false -> wf (fs w) = true ->
  p <> [] -> lookup (fs w) p = Some (File (Ok c) None) ->
  forallb keep_dir (removelast p) = true -> should_process_file p = true ->
  kind_of (fs (after_renames self w)) p =
  KFile (Ok (pipeline replacements c)) None.
Proof.
  intros D W Hp L K S. unfold after_renames. cbv zeta.
  rewrite git_patch_kind_other by (now apply kept_not_git_config).
  cbn [logged fs].
  apply process_spec_kind_same; [exact D | now apply collect_nodup | |].
  - apply (collect_visited (fs w) W []). exists p.
    split; [reflexivity|]. split; [|exact S].
    now apply (visited_of_lookup p _ (Ok c) None).
  - cbn [logged fs]. now apply kind_of_file.
Qed.

(** The second and third step on a path the walk leaves out. *)
Lemma after_renames_others (self : RenameProject) (w : world) (p : path) :
  p <> git_config ->
  should_process_file p = false \/ forallb keep_dir (removelast p) = false ->
  kind_of (fs (after_renames self w)) p = kind_of (fs w) p.
Proof.
  intros N H. unfold after_renames. cbv zeta.
  rewrite git_patch_kind_other by exact N. cbn [logged fs].
  rewrite process_spec_kind_other; [reflexivity|].
  intros Hin. apply collect_root_kept in Hin as [Hs Hk].
  destruct H as [H|H]; congruence.
Qed.

Lemma path_renames_ready (self : RenameProject) (w : world) :
  dry_run self = false -> wf (fs w) = true ->
  (forall rule, In rule path_renames ->
                path_exists (fs w) (parts (snd rule)) = false) ->
  exists w1,
    rename_paths self w = (Ok tt, w1) /\ wf (fs w1) = true /\
    (forall rule, In rule path_renames ->
       lookup (fs w1) (parts (snd rule)) = lookup (fs w) (parts (fst rule)) /\
       lookup (fs w1) (parts (fst rule)) = None) /\
    (forall z q, ~ In z [txt "lua"; txt "doc"; txt "plugin"] ->
                 lookup (fs w1) (z :: q) = lookup (fs w) (z :: q)).
Proof.
  intros D W Hnew.
  destruct (rename_rules_move self path_renames D) with (w := w)
    as [w' [E [W' [_ [L F]]]]].
  - rewrite path_renames_tops.
    repeat constructor; simpl; intuition discriminate.
  - apply path_renames_sibling.
  - intros rule Hin. apply lookup_exists, Hnew, Hin.
  - exact W.
  - exists w'. rewrite path_renames_tops in F.
    split; [exact E|]. split; [exact W'|]. split; [exact L | exact F].
Qed.

(** X16. A run that applies, in a tree without duplicate names in which
    the three new paths are free, returns, and rewrites the files it has
    moved at their new place: a file that could be read and written at an
    old path of a rename rule, or below it, is afterwards not at that
    path any more, and at the new path (when its name is eligible there
    and no hidden or skipped directory is on the way) reading gives what
    the loop over the rules returns for its content. *)
Theorem run_rewrites_moved (self : RenameProject) (w : world)
        (rule : str * str) (q : path) (content : str) :
  dry_run self = false -> wf (fs w) = true ->
  (forall r, In r path_renames ->
             path_exists (fs w) (parts (snd r)) = false) ->
  In rule path_renames ->
  lookup (fs w) (parts (fst rule) ++ q) = Some (File (Ok content) None) ->
  forallb keep_dir (removelast (parts (snd rule) ++ q)) = true ->
  should_process_file (parts (snd rule) ++ q) = true ->
  let w' := snd (run self w) in
  fst (run self w) = Ok tt /\
  (exists t lines,
     apply_rules replacements content [] = Ok (t, lines) /\
     read_text (fs w') (parts (snd rule) ++ q) = Ok t) /\
  path_exists (fs w') (parts (fst rule) ++ q) = false.
Proof.
  intros D W Hnew Hin L K S w'. subst w'. rewrite run_eq.
  destruct (path_renames_ready self (logged w [step1]) D W Hnew)
    as [w1 [E [W1 [M _]]]].
  rewrite E. cbn [fst snd]. split; [reflexivity|].
  destruct (M rule Hin) as [Mn Mo]. cbn [logged fs] in Mn.
  split.
  - exists (pipeline replacements content),
           (change_lines replacements content).
    split; [apply rewrite_ok|]. rewrite read_text_kind.
    rewrite (after_renames_rewrites self w1 _ content D W1); try assumption.
    + reflexivity.
    + intros C. apply app_eq_nil in C as [C _].
      destruct (path_renames_siblings rule Hin) as [d [a [b [_ [Hb _]]]]].
      rewrite Hb in C. now destruct d.
    + rewrite lookup_app, Mn, <- lookup_app. exact L.
  - rewrite after_renames_shape. apply lookup_exists.
    now rewrite lookup_app, Mo.
Qed.

Lemma run_rewrites_moved_witness :
  fst (run (New (txt ".") false) (World example_tree [])) = Ok tt /\
  (exists t lines,
     apply_rules replacements (txt "require('claude-code.config')") [] =
     Ok (t, lines) /\
     read_text (fs (snd (run (New (txt ".") false) (World example_tree []))))
               (parts (snd (nth 0 path_renames ([], []))) ++ [txt "init.lua"])
     = Ok t) /\
  path_exists (fs (snd (run (New (txt ".") false) (World example_tree []))))
              (parts (fst (nth 0 path_renames ([], []))) ++ [txt "init.lua"])
  = false.
Proof.
  apply (run_rewrites_moved (New (txt ".") false) (World example_tree [])
           (nth 0 path_renames ([], [])) [txt "init.lua"]
           (txt "require('claude-code.config')"));
    [reflexivity | vm_compute; reflexivity | | left; reflexivity
     | vm_compute; reflexivity | vm_compute; reflexivity
     | vm_compute; reflexivity].
  intros r [<-|[<-|[<-|[]]]]; vm_compute; reflexivity.
Defined.

(** X17. In such a run, for a path whose first component is not [lua],
    [doc] or [plugin]: a file of the walk that could be read and written
    holds afterwards what the loop over the rules returns for its
    content, and a path other than the git configuration that the walk
    leaves out (a name that is not eligible, or a hidden or skipped
    directory on the way) holds what it held. *)
Theorem run_rewrites_others (self : RenameProject) (w : world)
        (z : name) (q : path) :
  dry_run self = false -> wf (fs w) = true ->
  (forall r, In r path_renames ->
             path_exists (fs w) (parts (snd r)) = false) ->
  ~ In z [txt "lua"; txt "doc"; txt "plugin"] ->
  let w' := snd (run self w) in
  (forall content,
     In (z :: q) (collect (fs w) []) ->
     lookup (fs w) (z :: q) = Some (File (Ok content) None) ->
     exists t lines,
       apply_rules replacements content [] = Ok (t, lines) /\
       read_text (fs w') (z :: q) = Ok t) /\
  (z :: q <> git_config ->
   should_process_file (z :: q) = false \/
   forallb keep_dir (removelast (z :: q)) = false ->
   kind_of (fs w') (z :: q) = kind_of (fs w) (z :: q)).
Proof.
  intros D W Hnew Hz w'. subst w'. rewrite run_eq.
  destruct (path_renames_ready self (logged w [step1]) D W Hnew)
    as [w1 [E [W1 [_ F]]]].
  rewrite E. cbn [fst snd]. specialize (F z q Hz). cbn [logged fs] in F.
  split.
  - intros content Hin L.
    exists (pipeline replacements content),
           (change_lines replacements content).
    split; [apply rewrite_ok|]. rewrite read_text_kind.
    apply collect_root_kept in Hin as [Hs Hk].
    rewrite (after_renames_rewrites self w1 _ content D W1); try assumption.
    + reflexivity.
    + discriminate.
    + exact (eq_trans F L).
  - intros N H. rewrite after_renames_others by assumption.
    unfold kind_of.
    exact (f_equal (fun o => match o with
                             | Some (File data wr) => KFile data wr
                             | Some (Dir _) => KDir
                             | None => KNone
                             end) F).
Qed.

Lemma run_rewrites_others_witness :
  exists t lines,
    apply_rules replacements (txt "Install ianks/claude-code.nvim") [] =
    Ok (t, lines) /\
    read_text (fs (snd (run (New (txt ".") false) (World example_tree []))))
              [txt "README.md"] = Ok t.
Proof.
  assert (Hnew : forall r, In r path_renames ->
            path_exists example_tree (parts (snd r)) = false)
    by (intros r [<-|[<-|[<-|[]]]]; vm_compute; reflexivity).
  assert (Hz : ~ In (txt "README.md") [txt "lua"; txt "doc"; txt "plugin"])
    by (simpl; intuition discriminate).
  apply (proj1 (run_rewrites_others (New (txt ".") false)
                  (World example_tree []) (txt "README.md") []
                  eq_refl eq_refl Hnew Hz)).
  - vm_compute. left. reflexivity.
  - reflexivity.
Defined.
